(** * Shallow embedding of the sendu signaling relay, token store and
    browser-side file transfer.

    Sources:
    - src/unnamed/part_001 and src/index.js (second server): the
      WebSocket relay and the one-time token store ([/store], [/t/:id],
      [/consume/:id]);
    - src/unnamed/part_000 (client.js): ICE gathering wait, token
      shortening with fallback, chunked sender and receiver, the share
      button and the page's [ws.onmessage];
    - src/index.js and part_000 (upload servers): the [SIGNAL_STORE]
      routes [/signal] with their timers, and [/download]. *)

From Stdlib Require Import ZArith Lia.
From stdpp Require Import base gmap strings list pretty.

Open Scope Z_scope.
Set Warnings "-register-all".

(* ------------------------------------------------------------------ *)
(** ** JSON values as the JavaScript code sees them *)

(** A JSON value; numbers are kept as integers (the code only stores
    byte counts and ids in them). An object keeps its fields in source
    order, since [JSON.parse] keeps the last of two duplicate keys. *)
Inductive json : Type :=
| JNull
| JBool (b : bool)
| JNum (z : Z)
| JStr (s : string)
| JArr (l : list json)
| JObj (fields : list (string * json)).

(** JavaScript truthiness of a value; [None] is [undefined]. *)
Definition truthy (v : option json) : bool :=
  match v with
  | None => false
  | Some JNull => false
  | Some (JBool b) => b
  | Some (JNum z) => negb (Z.eqb z 0)
  | Some (JStr s) => negb (String.eqb s "")
  | Some (JArr _) => true
  | Some (JObj _) => true
  end.

(** Field lookup in an object literal: the last binding of [k] wins. *)
Fixpoint obj_get (fields : list (string * json)) (k : string) : option json :=
  match fields with
  | [] => None
  | (k', v) :: rest =>
      match obj_get rest k with
      | Some w => Some w
      | None => if String.eqb k k' then Some v else None
      end
  end.

(** Property access [v.k]: on [null] it throws a TypeError ([inl tt]);
    on an object it yields the field or [undefined]; the other values
    have none of the properties the code reads, so [undefined]. *)
Definition get_prop (v : json) (k : string) : unit + option json :=
  match v with
  | JNull => inl tt
  | JObj fs => inr (obj_get fs k)
  | _ => inr None
  end.

(** [String(v)] (ECMAScript ToString) of a JSON value. An array is
    [Array.prototype.join(',')] of its elements, where a [null] element
    gives the empty string. *)
Fixpoint js_string (v : json) : string :=
  match v with
  | JNull => "null"
  | JBool b => if b then "true" else "false"
  | JNum z => pretty z
  | JStr s => s
  | JArr l =>
      (fix join (l : list json) : string :=
         match l with
         | [] => ""
         | [x] => match x with JNull => "" | _ => js_string x end
         | x :: r => match x with JNull => "" | _ => js_string x end +:+ "," +:+ join r
         end) l
  | JObj _ => "[object Object]"
  end.

(* ------------------------------------------------------------------ *)
(** ** One-time token store (server: [tokens = new Map()]) *)

Module TokenStore.

(** The map [tokens : id -> token]. *)
Abbreviation tokens_t := (gmap string json).

(** HTTP responses of the three token routes. *)
Inductive response : Type :=
| RId (id : string)               (* res.json({ id }) *)
| RBadRequest                     (* 400 { error: 'Missing token' } *)
| RPage (id : string)             (* the reveal page for [id] *)
| RNotFoundPage                   (* 404 expired page *)
| RToken (tok : json)             (* res.json({ token }) *)
| RExpired.                       (* res.json({ error: 'expired' }) *)

(** [app.post('/store')]: [id] is the fresh [uuidv4()], [body_token] is
    [req.body.token] ([None] when absent). The TTL timer is the separate
    event [Expire id] below. The inputs are requests for which
    [req.body] is an object: with Express 5, a request the JSON parser
    skips leaves [req.body] undefined, [const { token } = req.body]
    throws and Express answers 500; that request is not modelled. *)
Definition store (id : string) (body_token : option json) (tokens : tokens_t)
  : response * tokens_t :=
  match body_token with
  | Some tok => if truthy (Some tok) then (RId id, <[id := tok]> tokens)
                else (RBadRequest, tokens)
  | None => (RBadRequest, tokens)
  end.

(** [app.get('/t/:id')]: reads the map, never writes it. *)
Definition reveal_page (id : string) (tokens : tokens_t) : response * tokens_t :=
  let token := tokens !! id in
  if negb (truthy token) then (RNotFoundPage, tokens)
  else (RPage id, tokens).

(** [app.get('/consume/:id')]. *)
Definition consume (id : string) (tokens : tokens_t) : response * tokens_t :=
  let token := tokens !! id in
  match token with
  | Some tok => if truthy token then (RToken tok, delete id tokens)
                else (RExpired, tokens)
  | None => (RExpired, tokens)
  end.

(** [setTimeout(() => tokens.delete(id), TOKEN_TTL)] firing. *)
Definition expire (id : string) (tokens : tokens_t) : tokens_t := delete id tokens.

(** The events the server handles on the token map. *)
Inductive event : Type :=
| Store (id : string) (body_token : option json)
| Peek (id : string)
| Consume (id : string)
| Expire (id : string).

Definition step (tokens : tokens_t) (e : event) : option response * tokens_t :=
  match e with
  | Store id b => let '(r, t) := store id b tokens in (Some r, t)
  | Peek id => let '(r, t) := reveal_page id tokens in (Some r, t)
  | Consume id => let '(r, t) := consume id tokens in (Some r, t)
  | Expire id => (None, expire id tokens)
  end.

Fixpoint run (tokens : tokens_t) (es : list event) : tokens_t :=
  match es with
  | [] => tokens
  | e :: rest => run (step tokens e).2 rest
  end.

(** [uuidv4()] never hands out an id twice: a store in the trace uses
    an id different from [id]. *)
Definition no_store_of (id : string) (e : event) : Prop :=
  match e with Store id' _ => id' <> id | _ => True end.

(** The entry for [id] is neither consumed nor expired by [e]. *)
Definition keeps (id : string) (e : event) : Prop :=
  match e with
  | Store id' _ => id' <> id
  | Consume id' => id' <> id
  | Expire id' => id' <> id
  | Peek _ => True
  end.

End TokenStore.

(* ------------------------------------------------------------------ *)
(** ** WebSocket relay (server: [clients = new Set()], [ws.on('message')]) *)

Module Relay.

(** Connections are numbered; [clients] is the [Set] in insertion order. *)
Abbreviation conn := nat.

(** [WebSocket.readyState]. *)
Inductive ready_state : Type := CONNECTING | OPEN | CLOSING | CLOSED.

Definition is_open (s : ready_state) : bool :=
  match s with OPEN => true | _ => false end.

(** Effects of a handler: a [send] on a connection, a console line, or a
    [terminate()] of a connection (only the shutdown path does that). *)
Inductive action : Type :=
| Send (to : conn) (msg : json)
| Log (line : string)
| Terminate (c : conn).

(** The two copies of the relay: part_001 only logs a handler error;
    index.js also answers [{type:'error', message:'invalid message'}]. *)
Inductive variant : Type := Part001 | IndexJs.

(** [JSON.stringify] of an object literal drops [undefined] fields. *)
Fixpoint mk_obj (fs : list (string * option json)) : list (string * json) :=
  match fs with
  | [] => []
  | (k, Some v) :: rest => (k, v) :: mk_obj rest
  | (k, None) :: rest => mk_obj rest
  end.

(** [JSON.parse(message)] has produced [Some data], or thrown ([None]). *)
Abbreviation parsed := (option json).

(** The catch block of [ws.on('message')]. *)
Definition on_error (v : variant) (ws : conn) : list action :=
  match v with
  | Part001 => [Log "Error handling message"]
  | IndexJs => [Log "Error handling ws message";
                Send ws (JObj [("type", JStr "error"); ("message", JStr "invalid message")])]
  end.

(** The [ice-candidate] case: [clients.forEach] sends to every client
    that is not [ws] and whose [readyState === WebSocket.OPEN]. *)
Definition broadcast_ice (ws : conn) (clients : list conn)
    (ready : conn -> ready_state) (cand : option json) : list action :=
  flat_map (fun client =>
    if negb (Nat.eqb client ws) && is_open (ready client)
    then [Send client (JObj (mk_obj [("type", Some (JStr "ice-candidate"));
                                     ("candidate", cand)]))]
    else []) clients.

(** [ws.on('message', ...)]: the new client set and the effects. The
    handler never touches [clients]. *)
Definition on_message (v : variant) (ws : conn) (clients : list conn)
    (ready : conn -> ready_state) (message : parsed) : list conn * list action :=
  match message with
  | None => (clients, on_error v ws)
  | Some data =>
      match get_prop data "type" with
      | inl _ => (clients, on_error v ws)
      | inr ty =>
          let field k := match get_prop data k with inr x => x | inl _ => None end in
          (clients,
           Log "Received" ::
           match ty with
           | Some (JStr t) =>
               if String.eqb t "offer" then
                 [Send ws (JObj (mk_obj [("type", Some (JStr "offer-created"));
                                         ("offer", field "offer")]))]
               else if String.eqb t "answer" then
                 [Send ws (JObj (mk_obj [("type", Some (JStr "answer-created"));
                                         ("answer", field "answer")]))]
               else if String.eqb t "ice-candidate" then
                 broadcast_ice ws clients ready (field "candidate")
               else [Log "Unknown message type"]
           | _ => [Log "Unknown message type"]
           end)
      end
  end.

(** [ws.on('close')] and [ws.on('error')]: [clients.delete(ws)]. *)
Definition on_close (ws : conn) (clients : list conn) : list conn :=
  List.filter (fun c => negb (Nat.eqb c ws)) clients.

(** [wss.on('connection')]: [clients.add(ws)] (a [Set] keeps one copy). *)
Definition on_connection (ws : conn) (clients : list conn) : list conn :=
  if existsb (Nat.eqb ws) clients then clients else clients ++ [ws].

(** The connections a list of effects delivers a message to. *)
Definition recipients (acts : list action) : list conn :=
  flat_map (fun a => match a with Send c _ => [c] | _ => [] end) acts.

(** The connections a list of effects closes. *)
Definition closed_by (acts : list action) : list conn :=
  flat_map (fun a => match a with Terminate c => [c] | _ => [] end) acts.

End Relay.

(* ------------------------------------------------------------------ *)
(** ** Data-channel receiver (client.js: [receiveFile]) *)

Module Receiver.

Abbreviation bytes := (list Byte.byte).

(** [ArrayBuffer.prototype.byteLength]. *)
Definition byteLength (d : bytes) : Z := Z.of_nat (length d).

(** The globals [receivedSize], [receivedChunks], [fileMetadata]. *)
Record state : Type := mkState {
  receivedSize : Z;
  receivedChunks : list bytes;
  fileMetadata : json
}.

(** [let receivedSize = 0, receivedChunks = [], fileMetadata = null]. *)
Definition init : state := mkState 0 [] JNull.

(** A data-channel message: [typeof ev.data === 'string'] with the
    result of [JSON.parse(ev.data)] ([None] when it throws), or an
    [ArrayBuffer]. *)
Inductive message : Type :=
| DString (parsed : option json)
| DBinary (data : bytes).

(** [downloadFile(new Blob(receivedChunks, {type: fileMetadata.fileType}),
    fileMetadata.name)]: the completion event, with the blob's bytes and
    its [type] attribute. *)
Record artifact : Type := mkArtifact {
  blob_bytes : bytes;
  blob_type : string;
  file_name : option json
}.

(** A character between U+0020 and U+007E. *)
Definition printable (c : Ascii.ascii) : bool :=
  let n := Ascii.nat_of_ascii c in (32 <=? n)%nat && (n <=? 126)%nat.

Fixpoint all_printable (t : string) : bool :=
  match t with
  | EmptyString => true
  | String c r => printable c && all_printable r
  end.

(** ASCII lowercase: A-Z become a-z, every other character is kept. *)
Definition ascii_lower (c : Ascii.ascii) : Ascii.ascii :=
  let n := Ascii.nat_of_ascii c in
  if (65 <=? n)%nat && (n <=? 90)%nat then Ascii.ascii_of_nat (n + 32) else c.

Fixpoint ascii_lowercase (t : string) : string :=
  match t with
  | EmptyString => EmptyString
  | String c r => String (ascii_lower c) (ascii_lowercase r)
  end.

(** The [type] of [new Blob(parts, {type: v})]: the dictionary member is
    converted to a DOMString ([undefined] gives the default [""], any
    other value [String(v)]); the constructor then keeps [""] if the
    string has a character outside U+0020..U+007E, and its ASCII
    lowercase otherwise. *)
Definition blob_type_of (v : option json) : string :=
  let t := match v with None => "" | Some x => js_string x end in
  if all_printable t then ascii_lowercase t else "".

(** The outcome of one call of the handler: the globals afterwards, the
    completions it fired, and whether an exception escaped it. *)
Record outcome : Type := mkOutcome {
  o_state : state;
  o_fired : list artifact;
  o_threw : bool
}.

Definition prop_or_undef (v : json) (k : string) : option json :=
  match get_prop v k with inr x => x | inl _ => None end.

Definition receiveFile (s : state) (m : message) : outcome :=
  match m with
  | DString None => mkOutcome s [] true
  | DString (Some md) =>
      (* fileMetadata = ...; receivedSize = 0; receivedChunks = [];
         showStatus('Receiving ' + fileMetadata.name) *)
      let s' := mkState 0 [] md in
      match get_prop md "name" with
      | inl _ => mkOutcome s' [] true
      | inr _ => mkOutcome s' [] false
      end
  | DBinary d =>
      (* receivedChunks.push(ev.data); receivedSize += ev.data.byteLength *)
      let chunks := receivedChunks s ++ [d] in
      let size := receivedSize s + byteLength d in
      let s' := mkState size chunks (fileMetadata s) in
      (* updateProgress((receivedSize / fileMetadata.size) * 100) *)
      match get_prop (fileMetadata s) "size" with
      | inl _ => mkOutcome s' [] true
      | inr declared =>
          if match declared with Some (JNum z) => Z.eqb size z | _ => false end
          then mkOutcome s'
                 [mkArtifact (concat chunks)
                    (blob_type_of (prop_or_undef (fileMetadata s) "fileType"))
                    (prop_or_undef (fileMetadata s) "name")] false
          else mkOutcome s' [] false
      end
  end.

(** A session: the handler applied to each message in turn; the result
    lists one outcome per message (an exception ends that call only). *)
Fixpoint run (s : state) (ms : list message) : state * list outcome :=
  match ms with
  | [] => (s, [])
  | m :: rest =>
      let o := receiveFile s m in
      let '(s', os) := run (o_state o) rest in
      (s', o :: os)
  end.

(** All completions fired during a session, in order. *)
Definition fired (os : list outcome) : list artifact := flat_map o_fired os.

(** The metadata record the sender writes (see [Sender.metadata]). *)
Definition metadata_json (name : string) (size : Z) (ty : string) : json :=
  JObj [("type", JStr "metadata"); ("name", JStr name);
        ("size", JNum size); ("fileType", JStr ty)].

End Receiver.

(* ------------------------------------------------------------------ *)
(** ** Chunked sender (client.js: [sendFiles], [fileReader.onload], [readSlice]) *)

Module Sender.

Abbreviation bytes := (list Byte.byte).

(** A [File]: [name], [type] and its contents ([size] is their length). *)
Record file : Type := mkFile {
  fname : string;
  ftype : string;
  fbytes : bytes
}.

Definition fsize (f : file) : Z := Z.of_nat (length (fbytes f)).

(** [const chunkSize = 16384]. *)
Definition chunkSize : Z := 16384.

(** [File.prototype.slice(o, o + chunkSize)] read as an [ArrayBuffer]. *)
Definition slice (f : file) (o e : Z) : bytes :=
  firstn (Z.to_nat (e - o)) (skipn (Z.to_nat o) (fbytes f)).

(** What the sender does, in order: a string or binary
    [dataChannel.send], a [fileReader.readAsArrayBuffer] at an offset,
    and the final local [showStatus('File sent!')]. *)
Inductive action : Type :=
| SendStr (msg : json)
| SendBin (chunk : bytes)
| ReadSlice (o : Z)
| FileSent.

(** [const metadata = { type: 'metadata', name, size, fileType }]. *)
Definition metadata (f : file) : json :=
  JObj [("type", JStr "metadata"); ("name", JStr (fname f));
        ("size", JNum (fsize f)); ("fileType", JStr (ftype f))].

(** [fileReader.onload] for the read issued at [offset]: send the slice,
    advance [offset], and issue the next read or finish. The browser runs
    it once per completed read; [fuel] bounds the number of reads. *)
Fixpoint onload (fuel : nat) (f : file) (offset : Z) : list action :=
  match fuel with
  | O => []
  | S fuel' =>
      let result := slice f offset (offset + chunkSize) in
      let offset' := offset + Z.of_nat (length result) in
      SendBin result ::
      if offset' <? fsize f then ReadSlice offset' :: onload fuel' f offset'
      else [FileSent]
  end.

(** [sendFiles()]: [currentFile = selectedFiles[0]; offset = 0], send the
    metadata, [readSlice(0)]. With no file selected [currentFile.name]
    throws ([None]); the share button's guard never calls it so. *)
Definition sendFiles (fuel : nat) (selectedFiles : list file) : option (list action) :=
  match selectedFiles with
  | [] => None
  | currentFile :: _ =>
      Some (SendStr (metadata currentFile) :: ReadSlice 0 :: onload fuel currentFile 0)
  end.

(** The shape of a run: for chunks [c0, c1, ...] starting at offset [o],
    read at [o], send [c0], read at [o + |c0|], send [c1], .... *)
Fixpoint interleave (o : Z) (cs : list bytes) : list action :=
  match cs with
  | [] => []
  | c :: rest => ReadSlice o :: SendBin c :: interleave (o + Z.of_nat (length c)) rest
  end.

(** The binary frames of a run. *)
Definition sent_chunks (acts : list action) : list bytes :=
  flat_map (fun a => match a with SendBin c => [c] | _ => [] end) acts.

(** The string frames of a run. *)
Definition sent_strings (acts : list action) : list json :=
  flat_map (fun a => match a with SendStr m => [m] | _ => [] end) acts.

End Sender.

(* ------------------------------------------------------------------ *)
(** ** ICE gathering wait (client.js: [waitForIceGatheringComplete]) *)

Module IceWait.

(** [RTCPeerConnection.iceGatheringState]. *)
Inductive gathering : Type := GNew | GGathering | GComplete.

Definition is_complete (g : gathering) : bool :=
  match g with GComplete => true | _ => false end.

(** The event-loop tasks after the call: an [icegatheringstatechange]
    carrying the new state, or the [setTimeout] callback. *)
Inductive task : Type :=
| StateChange (g : gathering)
| TimerFires.

(** The promise's closure state: the time it was first resolved, and
    whether [handler] is still registered. *)
Record wstate : Type := mkW {
  resolved_at : option Z;
  listening : bool
}.

(** [resolve()]: only the first call settles the promise. *)
Definition resolve (t : Z) (w : wstate) : wstate :=
  match resolved_at w with
  | Some _ => w
  | None => mkW (Some t) (listening w)
  end.

(** The timer queued at [timeout] runs after the state changes scheduled
    strictly before it; [changes] are in time order. *)
Fixpoint schedule (timeout : Z) (changes : list (Z * gathering)) : list (Z * task) :=
  match changes with
  | [] => [(timeout, TimerFires)]
  | (t, g) :: rest =>
      if t <? timeout then (t, StateChange g) :: schedule timeout rest
      else (timeout, TimerFires) :: map (fun '(t', g') => (t', StateChange g')) changes
  end.

(** One task: [handler] resolves when the new state is [complete] and
    removes itself; the timer removes [handler] and resolves. *)
Definition run_task (w : wstate) (tt : Z * task) : wstate :=
  let '(t, k) := tt in
  match k with
  | StateChange g =>
      if listening w && is_complete g then resolve t (mkW (resolved_at w) false) else w
  | TimerFires => resolve t (mkW (resolved_at w) false)
  end.

Definition run_tasks (w : wstate) (ts : list (Z * task)) : wstate :=
  fold_left run_task ts w.

(** [waitForIceGatheringComplete(pc, timeout)] called at time 0: [pc] is
    [None] for a null connection, else its current gathering state. The
    result is the time the returned promise resolves ([None]: never). *)
Definition waitForIceGatheringComplete (pc : option gathering) (timeout : Z)
    (changes : list (Z * gathering)) : option Z :=
  match pc with
  | None => Some 0
  | Some g =>
      if is_complete g then Some 0
      else resolved_at (run_tasks (mkW None true) (schedule timeout changes))
  end.

(** The default argument [timeout = 3000]; no call site passes another. *)
Definition default_timeout : Z := 3000.

(** The earliest time at which the state becomes [complete]. *)
Fixpoint earliest_complete (changes : list (Z * gathering)) : option Z :=
  match changes with
  | [] => None
  | (t, g) :: rest =>
      let r := earliest_complete rest in
      if is_complete g then
        match r with Some t' => Some (Z.min t t') | None => Some t end
      else r
  end.

(** The state changes are listed in time order. *)
Fixpoint time_ordered (changes : list (Z * gathering)) : Prop :=
  match changes with
  | [] => True
  | (t, _) :: rest => Forall (fun x => t <= x.1) rest /\ time_ordered rest
  end.

End IceWait.

(* ------------------------------------------------------------------ *)
(** ** Token shortening with fallback (client.js: [storeTokenAndGetShortUrl],
       the [offer-created] / [answer-created] branches, [generateQRCode]) *)

Module Shorten.

(** What [fetch('/store', ...)] produced: a rejected promise, or a
    response with [resp.ok] and the result of [resp.json()] ([None]:
    it rejects). *)
Inductive store_outcome : Type :=
| FetchRejects
| Resp (ok : bool) (body : option json).

(** [storeTokenAndGetShortUrl]: [Some url], or [None] when it throws. *)
Definition storeTokenAndGetShortUrl (origin : string) (o : store_outcome) : option string :=
  match o with
  | FetchRejects => None
  | Resp false _ => None
  | Resp true None => None
  | Resp true (Some body) =>
      match get_prop body "id" with
      | inl _ => None                     (* const { id } = null *)
      | inr id =>
          let ids := match id with Some v => js_string v | None => "undefined" end in
          Some (origin +:+ "/t/" +:+ ids)
      end
  end.

(** The page elements the branches write. *)
Record ui : Type := mkUi {
  tokenInput : string;          (* tokenInput.value *)
  qr : string * Z;              (* text and size of the QRCode instance *)
  answerSection_shown : bool;   (* answerSection.style.display = 'block' *)
  status_error : bool           (* showStatus(..., 'error') *)
}.

Inductive created : Type := OfferCreated | AnswerCreated.

Section WithURL.

(** [new URL(text, base).href], or [None] when the constructor throws. *)
Variable new_URL : string -> string -> option string.
Variable origin : string.

(** [generateQRCode(text, size)]: the text the QR code encodes. *)
Definition qr_text (text : string) : string :=
  match new_URL text origin with
  | Some href => href
  | None => text
  end.

Definition generateQRCode (text : string) (size : Z) : string * Z :=
  (qr_text text, size).

(** The [offer-created] / [answer-created] branch of [ws.onmessage], with
    [token = JSON.stringify(data.offer)] (or [data.answer]), from the
    state [u] of the page. *)
Definition on_created (k : created) (token : string) (o : store_outcome) (u : ui) : ui :=
  match storeTokenAndGetShortUrl origin o with
  | Some short =>
      mkUi short (generateQRCode short 128)
           (match k with OfferCreated => true | AnswerCreated => answerSection_shown u end)
           false
  | None =>
      mkUi token (generateQRCode token 256) (answerSection_shown u) true
  end.

End WithURL.

End Shorten.

(* ------------------------------------------------------------------ *)
(** ** A fragment of the WHATWG URL parser used by [new URL(text, base)] *)

Module WhatwgUrl.
Local Open Scope nat_scope.

Definition code (c : Ascii.ascii) : nat := Ascii.nat_of_ascii c.

Definition hex_digit (n : nat) : Ascii.ascii :=
  if Nat.ltb n 10 then Ascii.ascii_of_nat (48 + n) else Ascii.ascii_of_nat (55 + n).

(** The path percent-encode set: C0 controls, space, the double quote, [#], [<], [>],
    [?], [^], [`], [{], [}] and everything above [~]. *)
Definition in_path_set (c : Ascii.ascii) : bool :=
  let n := code c in
  Nat.ltb n 32 || Nat.ltb 126 n ||
  existsb (Nat.eqb n) [32; 34; 35; 60; 62; 63; 94; 96; 123; 125].

(** One code point in the path state of a special URL: [\] ends a
    segment like [/]; members of the set are written [%XX]. *)
Definition path_char (c : Ascii.ascii) : string :=
  if Nat.eqb (code c) 92 then "/"
  else if in_path_set c then
    String (Ascii.ascii_of_nat 37) (String (hex_digit (Nat.div (code c) 16))
                       (String (hex_digit (Nat.modulo (code c) 16)) EmptyString))
  else String c EmptyString.

Fixpoint path_encode (s : string) : string :=
  match s with
  | EmptyString => EmptyString
  | String c r => path_char c +:+ path_encode r
  end.

Definition is_alpha (c : Ascii.ascii) : bool :=
  let n := code c in (Nat.leb 65 n && Nat.leb n 90) || (Nat.leb 97 n && Nat.leb n 122).

Definition is_sep (c : Ascii.ascii) : bool :=
  Nat.eqb (code c) 47 || Nat.eqb (code c) 92.

(** No [?], [#], tab, LF, CR or non-ASCII byte, and no path segment
    starting with [.] or [%] (so no dot segment). *)
Fixpoint plain_path (after_sep : bool) (s : string) : bool :=
  match s with
  | EmptyString => true
  | String c r =>
      let n := code c in
      negb (existsb (Nat.eqb n) [9; 10; 13; 35; 63]) && Nat.ltb n 128 &&
      negb (after_sep && (Nat.eqb n 46 || Nat.eqb n 37)) &&
      plain_path (is_sep c) r
  end.

Fixpoint last_char (s : string) : option Ascii.ascii :=
  match s with
  | EmptyString => None
  | String c EmptyString => Some c
  | String _ r => last_char r
  end.

(** The inputs this fragment covers: no leading or trailing space or
    control (nothing is trimmed), a first code point that is neither a
    letter (no scheme) nor [/] or [\] (a path-relative reference). *)
Definition in_fragment (s : string) : bool :=
  match s, last_char s with
  | String c _, Some l =>
      Nat.ltb 32 (code c) && Nat.ltb 32 (code l) &&
      negb (is_alpha c) && negb (is_sep c) && plain_path true s
  | _, _ => false
  end.

(** [new URL(s, origin).href] for [origin] a special [scheme://host]
    (path [[""]], which the relative state shortens to [[]]): the
    relative state copies the base and the path state appends [s]. *)
Definition relative_href (s origin : string) : option string :=
  if in_fragment s then Some (origin +:+ "/" +:+ path_encode s) else None.

End WhatwgUrl.

(* ------------------------------------------------------------------ *)
(** ** Short-lived SDP store (index.js and part_000: [SIGNAL_STORE],
       [app.post('/signal')], [app.get('/signal/:token')]) *)

Module SignalStore.

(** [{ sdp, timeout }]: the stored value and the handle of its timer. *)
Record entry : Type := mkEntry {
  sdp : json;
  timeout : nat
}.

(** The map [SIGNAL_STORE], the pending timers (handle -> the token its
    callback deletes) and the next timer handle. *)
Record sstate : Type := mkS {
  store : gmap string entry;
  timers : gmap nat string;
  next_timer : nat
}.

Definition empty : sstate := mkS ∅ ∅ 0.

Inductive sresponse : Type :=
| SToken (token : string)       (* res.json({ token }) *)
| SMissingSdp                   (* 400 { error: 'missing sdp' } *)
| SSdp (sdp : json)             (* res.json({ sdp: entry.sdp }) *)
| SNotFound.                    (* 404 { error: 'not found or expired' } *)

(** [const { sdp } = req.body || {}]. *)
Definition body_sdp (body : option json) : option json :=
  if truthy body then
    match body with
    | Some v => match get_prop v "sdp" with inr x => x | inl _ => None end
    | None => None
    end
  else None.

(** [app.post('/signal')]: [token] is [crypto.randomBytes(6)] in base64url. *)
Definition post (token : string) (body : option json) (s : sstate) : sresponse * sstate :=
  let v := body_sdp body in
  match v with
  | Some sdp' =>
      if truthy v then
        (* if (SIGNAL_STORE.has(token)) SIGNAL_STORE.delete(token) *)
        let st := if bool_decide (is_Some (store s !! token))
                  then delete token (store s) else store s in
        (* const timeout = setTimeout(() => SIGNAL_STORE.delete(token), ...) *)
        let t := next_timer s in
        (SToken token,
         mkS (<[token := mkEntry sdp' t]> st) (<[t := token]> (timers s)) (S t))
      else (SMissingSdp, s)
  | None => (SMissingSdp, s)
  end.

(** [app.get('/signal/:token')]: [clearTimeout(entry.timeout)], delete. *)
Definition get (token : string) (s : sstate) : sresponse * sstate :=
  match store s !! token with
  | None => (SNotFound, s)
  | Some e =>
      (SSdp (sdp e),
       mkS (delete token (store s)) (delete (timeout e) (timers s)) (next_timer s))
  end.

(** A timer callback running: a cleared timer does nothing. *)
Definition fire (t : nat) (s : sstate) : sstate :=
  match timers s !! t with
  | Some k => mkS (delete k (store s)) (delete t (timers s)) (next_timer s)
  | None => s
  end.

Inductive sevent : Type :=
| Post (token : string) (body : option json)
| Get (token : string)
| Fire (t : nat).

Definition sstep (s : sstate) (e : sevent) : sstate :=
  match e with
  | Post token body => (post token body s).2
  | Get token => (get token s).2
  | Fire t => fire t s
  end.

Definition srun (s : sstate) (es : list sevent) : sstate := fold_left sstep es s.

(** Every stored entry's timer is pending and deletes that entry's
    token; every pending handle was handed out. *)
Definition wf (s : sstate) : Prop :=
  (forall k e, store s !! k = Some e -> timers s !! timeout e = Some k) /\
  (forall t k, timers s !! t = Some k -> (t < next_timer s)%nat).

End SignalStore.

(* ------------------------------------------------------------------ *)
(** ** [app.get('/download')]: [path.join(__dirname, req.query.path)]
       with Node's POSIX [path.join] and [path.normalize] *)

Module NodePath.

Abbreviation path := (list Ascii.ascii).

Definition slash : Ascii.ascii := Ascii.ascii_of_nat 47.
Definition dot : Ascii.ascii := Ascii.ascii_of_nat 46.
Definition dotdot : path := [dot; dot].

(** The segments between the separators. *)
Fixpoint split_slash (p : path) : list path :=
  match p with
  | [] => [[]]
  | c :: r =>
      if bool_decide (c = slash) then [] :: split_slash r
      else match split_slash r with
           | seg :: segs => (c :: seg) :: segs
           | [] => [[c]]
           end
  end.

(** The segments, separated by one [/]. *)
Fixpoint join_slash (segs : list path) : path :=
  match segs with
  | [] => []
  | [x] => x
  | x :: r => x ++ slash :: join_slash r
  end.

(** [normalizeString(path, allowAboveRoot)]: empty and [.] segments
    are dropped, [..] removes the last kept segment unless that is a
    [..] itself or there is none, where it is kept when
    [allowAboveRoot]. The kept segments, last first. *)
Fixpoint norm_go (allow : bool) (stack : list path) (segs : list path) : list path :=
  match segs with
  | [] => stack
  | seg :: rest =>
      if bool_decide (seg = []) || bool_decide (seg = [dot]) then norm_go allow stack rest
      else if bool_decide (seg = dotdot) then
        match stack with
        | top :: st' =>
            if bool_decide (top = dotdot)
            then norm_go allow (if allow then dotdot :: stack else stack) rest
            else norm_go allow st' rest
        | [] => norm_go allow (if allow then [dotdot] else []) rest
        end
      else norm_go allow (seg :: stack) rest
  end.

(** [path.normalize]. *)
Definition normalize (p : path) : path :=
  match p with
  | [] => [dot]
  | c :: _ =>
      let isAbsolute := bool_decide (c = slash) in
      let trailingSeparator := bool_decide (last p = Some slash) in
      let r := join_slash (rev (norm_go (negb isAbsolute) [] (split_slash p))) in
      match r with
      | [] => if isAbsolute then [slash] else if trailingSeparator then [dot; slash] else [dot]
      | _ =>
          let r' := if trailingSeparator then r ++ [slash] else r in
          if isAbsolute then slash :: r' else r'
      end
  end.

(** [path.join(...args)]: an argument that is not a string throws
    ([None]); the nonempty ones are joined with [/] and normalized. *)
Definition join (args : list (option path)) : option path :=
  match mapM id args with
  | None => None
  | Some ps =>
      match List.filter (fun p => negb (bool_decide (p = []))) ps with
      | [] => Some [dot]
      | p :: ps' => Some (normalize (fold_left (fun acc q => acc ++ slash :: q) ps' p))
      end
  end.

(** The file [res.download] is asked to send for [req.query.path]
    ([None] when absent or not a string: [path.join] throws). *)
Definition download_path (dirname : path) (query_path : option path) : option path :=
  join [Some dirname; query_path].

(** A segment a client can name: nonempty, no [/], not [.] or [..]. *)
Definition plain_segment (seg : path) : Prop :=
  seg <> [] /\ seg <> [dot] /\ seg <> dotdot /\ ~ In slash seg.

End NodePath.

(* ------------------------------------------------------------------ *)
(** ** A session of the relay: connections, messages and closes *)

Module RelaySession.
Import Relay.

(** The welcome frame; part_001 sends it always, index.js only to an
    open socket. *)
Definition welcome_msg : json :=
  JObj [("type", JStr "connected"); ("message", JStr "Connected to signaling server")].

Definition welcome (v : variant) (ws : conn) (ready : conn -> ready_state) : list action :=
  match v with
  | Part001 => [Send ws welcome_msg]
  | IndexJs => if is_open (ready ws) then [Send ws welcome_msg] else []
  end.

Inductive revent : Type :=
| Connect (ws : conn)
| Message (ws : conn) (m : parsed)
| Closed (ws : conn).        (* [ws.on('close')] or [ws.on('error')] *)

Definition rstep (v : variant) (ready : conn -> ready_state) (clients : list conn)
    (e : revent) : list conn * list action :=
  match e with
  | Connect ws => (on_connection ws clients, welcome v ws ready)
  | Message ws m => on_message v ws clients ready m
  | Closed ws => (on_close ws clients, [])
  end.

(** The client set after the events and every effect, in order. *)
Fixpoint rrun (v : variant) (ready : conn -> ready_state) (clients : list conn)
    (es : list revent) : list conn * list action :=
  match es with
  | [] => (clients, [])
  | e :: rest =>
      let '(cl, acts) := rstep v ready clients e in
      let '(cl', acts') := rrun v ready cl rest in
      (cl', acts ++ acts')
  end.

(** Events in which [c] does not take part. *)
Definition not_of (c : conn) (e : revent) : Prop :=
  match e with
  | Connect ws => ws <> c
  | Message ws _ => ws <> c
  | Closed _ => True
  end.

End RelaySession.

(* ------------------------------------------------------------------ *)
(** ** The client side of the channels *)

Module ClientFlow.

(** What the data channel carries to [receiveFile]: [dataChannel.send]
    of a string ([JSON.stringify] of the record, parsed back on the
    other side) or of an [ArrayBuffer]; reads and the local status are
    not frames. *)
Definition deliver (acts : list Sender.action) : list Receiver.message :=
  flat_map (fun a => match a with
                     | Sender.SendStr m => [Receiver.DString (Some m)]
                     | Sender.SendBin c => [Receiver.DBinary c]
                     | _ => []
                     end) acts.

(** The share button: [None] is [sendFiles] throwing. *)
Inductive share_result : Type :=
| ShareRefused (msg : string)                  (* showStatus(msg, 'error') *)
| ShareRan (r : option (list Sender.action)).

Definition share_click (channel_open : bool) (fuel : nat)
    (selectedFiles : list Sender.file) : share_result :=
  if negb channel_open then ShareRefused "Establish connection first"
  else if negb (Nat.ltb 0 (length selectedFiles)) then ShareRefused "Select a file"
  else ShareRan (Sender.sendFiles fuel selectedFiles).

(** [ws.onmessage] in client.js, for [data = JSON.parse(evt.data)]. *)
Inductive client_step : Type :=
| CThrows
| CCreated (k : Shorten.created) (payload : option json)  (* data.offer or data.answer *)
| CAddIce (candidate : option json)
| CIgnored.

Definition on_ws_message (has_pc : bool) (data : option json) : client_step :=
  match data with
  | None => CThrows
  | Some d =>
      match get_prop d "type" with
      | inl _ => CThrows
      | inr ty =>
          let field k := match get_prop d k with inr x => x | inl _ => None end in
          match ty with
          | Some (JStr t) =>
              if String.eqb t "offer-created" then CCreated Shorten.OfferCreated (field "offer")
              else if String.eqb t "answer-created" then CCreated Shorten.AnswerCreated (field "answer")
              else if String.eqb t "ice-candidate" && has_pc then CAddIce (field "candidate")
              else CIgnored
          | _ => CIgnored
          end
      end
  end.

(** The [/store] reply as the client's [fetch] sees it. *)
Definition http_of (r : TokenStore.response) : Shorten.store_outcome :=
  match r with
  | TokenStore.RId id => Shorten.Resp true (Some (JObj [("id", JStr id)]))
  | TokenStore.RBadRequest => Shorten.Resp false (Some (JObj [("error", JStr "Missing token")]))
  | _ => Shorten.Resp false None
  end.

End ClientFlow.

(* ================================================================== *)
(** * Properties *)

Module TokenStoreFacts.
Import TokenStore.

Lemma step_other (tokens : gmap string json) (id : string) (e : event) :
  keeps id e -> (step tokens e).2 !! id = tokens !! id.
Proof.
  destruct e as [id' b | id' | id' | id']; simpl; intros Hne;
    unfold store, reveal_page, consume, expire; repeat case_match; simplify_eq/=;
    rewrite ?lookup_insert_ne, ?lookup_delete_ne by congruence; reflexivity.
Qed.

Lemma run_keeps (tokens : gmap string json) (id : string) (es : list event) :
  Forall (keeps id) es -> run tokens es !! id = tokens !! id.
Proof.
  revert tokens. induction es as [| e es IH]; intros tokens Hall; simpl; [reflexivity|].
  inversion Hall as [| ? ? He Hes]; subst.
  rewrite IH by assumption. apply step_other. assumption.
Qed.

(** Without a store of [id], nothing brings a missing entry back. *)
Lemma step_absent (tokens : gmap string json) (id : string) (e : event) :
  no_store_of id e -> tokens !! id = None -> (step tokens e).2 !! id = None.
Proof.
  destruct e as [id' b | id' | id' | id']; simpl; intros Hne Hnone;
    unfold store, reveal_page, consume, expire; repeat case_match; simplify_eq/=;
    rewrite ?lookup_insert_ne, ?lookup_delete_None by congruence; auto.
Qed.

Lemma run_absent (tokens : gmap string json) (id : string) (es : list event) :
  Forall (no_store_of id) es -> tokens !! id = None -> run tokens es !! id = None.
Proof.
  revert tokens. induction es as [| e es IH]; intros tokens Hall Hnone; simpl; [assumption|].
  inversion Hall; subst. apply IH; [assumption|]. apply step_absent; assumption.
Qed.

Lemma consume_absent (tokens : gmap string json) (id : string) :
  tokens !! id = None -> consume id tokens = (RExpired, tokens).
Proof. intros H. unfold consume. rewrite H. reflexivity. Qed.

(** Claim C1: a payload stored under a fresh id is returned, and its
    entry deleted, by the first [/consume] of the id (the trace [before]
    neither consumes nor expires it); every later [/consume] of the id
    answers [{error: 'expired'}], whatever other events happen between
    (other stores use other ids). *)
Theorem consume_one_time (tokens : gmap string json) (id : string) (tok : json)
    (before after : list event) :
  truthy (Some tok) = true ->
  Forall (keeps id) before ->
  Forall (no_store_of id) after ->
  let stored := run (store id (Some tok) tokens).2 before in
  (store id (Some tok) tokens).1 = RId id /\
  consume id stored = (RToken tok, delete id stored) /\
  (consume id (run (consume id stored).2 after)).1 = RExpired.
Proof.
  intros Ht Hbefore Hafter stored.
  assert (Hs : stored !! id = Some tok).
  { unfold stored. rewrite run_keeps by assumption.
    unfold store. rewrite Ht. simpl. apply lookup_insert_eq. }
  assert (Hc : consume id stored = (RToken tok, delete id stored)).
  { unfold consume. rewrite Hs, Ht. reflexivity. }
  split; [unfold store; rewrite Ht; reflexivity|]. split; [exact Hc|].
  rewrite Hc. simpl. rewrite consume_absent; [reflexivity|].
  apply run_absent; [assumption|]. apply lookup_delete_eq.
Qed.

(** The scenario of the spec: [store] of ["OFFER_SDP_X"] under [abc],
    the reveal page served, then two consumes with a store between. *)
Lemma consume_one_time_witness :
  let stored := run (store "abc" (Some (JStr "OFFER_SDP_X")) ∅).2 [Peek "abc"] in
  (store "abc" (Some (JStr "OFFER_SDP_X")) ∅).1 = RId "abc" /\
  consume "abc" stored = (RToken (JStr "OFFER_SDP_X"), delete "abc" stored) /\
  (consume "abc" (run (consume "abc" stored).2
     [Store "def" (Some (JStr "ANSWER")); Consume "abc"])).1 = RExpired.
Proof.
  apply (consume_one_time ∅ "abc" (JStr "OFFER_SDP_X") [Peek "abc"]
           [Store "def" (Some (JStr "ANSWER")); Consume "abc"]).
  - reflexivity.
  - repeat constructor.
  - repeat constructor. simpl. discriminate.
Defined.

(** Claim C7: [GET /t/:id] leaves the token map as it is, however often
    it is served; an entry leaves the map only through [/consume] of its
    id or its TTL timer. *)
Theorem reveal_page_frame (tokens : gmap string json) (id : string) :
  (forall (n : nat) (id' : string), run tokens (repeat (Peek id') n) = tokens) /\
  (forall es : list event, Forall (keeps id) es -> run tokens es !! id = tokens !! id).
Proof.
  split.
  - intros n id'. induction n as [| n IH]; simpl; [reflexivity|].
    unfold reveal_page. destruct (negb (truthy (tokens !! id'))); exact IH.
  - intros es Hes. apply run_keeps. exact Hes.
Qed.

Lemma reveal_page_frame_witness :
  run (<["abc" := JStr "OFFER_SDP_X"]> ∅) [Peek "abc"; Expire "zzz"] !! "abc"
  = Some (JStr "OFFER_SDP_X").
Proof.
  rewrite (proj2 (reveal_page_frame (<["abc" := JStr "OFFER_SDP_X"]> ∅) "abc")).
  - apply lookup_insert_eq.
  - repeat constructor. simpl. discriminate.
Defined.

End TokenStoreFacts.

Module RelayFacts.
Import Relay.

Lemma recipients_app (a b : list action) :
  recipients (a ++ b) = recipients a ++ recipients b.
Proof. unfold recipients. apply flat_map_app. Qed.

Lemma recipients_broadcast (ws : conn) (clients : list conn)
    (ready : conn -> ready_state) (cand : option json) :
  recipients (broadcast_ice ws clients ready cand) =
  List.filter (fun c => negb (Nat.eqb c ws) && is_open (ready c)) clients.
Proof.
  unfold recipients, broadcast_ice.
  induction clients as [| c cs IH]; [reflexivity|].
  cbn [flat_map]. rewrite flat_map_app, IH. cbn [List.filter].
  destruct (negb (Nat.eqb c ws) && is_open (ready c)); reflexivity.
Qed.

Lemma closed_by_broadcast (ws : conn) (clients : list conn)
    (ready : conn -> ready_state) (cand : option json) :
  closed_by (broadcast_ice ws clients ready cand) = [].
Proof.
  unfold closed_by, broadcast_ice.
  induction clients as [| c cs IH]; [reflexivity|].
  cbn [flat_map]. rewrite flat_map_app, IH. cbn [List.filter].
  destruct (negb (Nat.eqb c ws) && is_open (ready c)); reflexivity.
Qed.

(** The [ice-candidate] case of the switch. *)
Lemma on_message_ice (v : variant) (ws : conn) (clients : list conn)
    (ready : conn -> ready_state) (fs : list (string * json)) :
  obj_get fs "type" = Some (JStr "ice-candidate") ->
  on_message v ws clients ready (Some (JObj fs)) =
  (clients, Log "Received" :: broadcast_ice ws clients ready (obj_get fs "candidate")).
Proof. intros H. unfold on_message. simpl. rewrite H. reflexivity. Qed.

Lemma in_recipients_ice (ws : conn) (clients : list conn)
    (ready : conn -> ready_state) (cand : option json) (c : conn) :
  In c (recipients (broadcast_ice ws clients ready cand)) <->
  In c clients /\ c <> ws /\ ready c = OPEN.
Proof.
  rewrite recipients_broadcast, filter_In, andb_true_iff, negb_true_iff, Nat.eqb_neq.
  unfold is_open. destruct (ready c); intuition congruence.
Qed.

Lemma length_filter_other (ws : conn) (l : list conn) :
  List.NoDup l -> In ws l ->
  length (List.filter (fun c => negb (Nat.eqb c ws)) l) = (length l - 1)%nat.
Proof.
  induction l as [| c l IH]; intros Hnd Hin; [destruct Hin|].
  inversion Hnd as [| ? ? Hnotin Hnd']; subst. simpl.
  destruct (Nat.eqb_spec c ws) as [-> | Hne]; simpl.
  - rewrite (forallb_filter_id _ l); [simpl; lia|].
    apply forallb_forall. intros x Hx. apply negb_true_iff, Nat.eqb_neq.
    intros ->. apply Hnotin. exact Hx.
  - destruct Hin as [-> | Hin]; [congruence|].
    rewrite IH by assumption. destruct l; [destruct Hin | simpl; lia].
Qed.

(** Claim C4: with [K] registered connections, all of them open, an
    [ice-candidate] from one of them reaches exactly the [K - 1] others,
    each once, and never the sender. *)
Theorem ice_broadcast_others (v : variant) (ws : conn) (clients : list conn)
    (ready : conn -> ready_state) (fs : list (string * json)) :
  List.NoDup clients -> In ws clients ->
  (forall c, In c clients -> ready c = OPEN) ->
  obj_get fs "type" = Some (JStr "ice-candidate") ->
  let r := recipients (on_message v ws clients ready (Some (JObj fs))).2 in
  length r = (length clients - 1)%nat /\ List.NoDup r /\ ~ In ws r /\
  (forall c, In c clients -> c <> ws -> In c r) /\
  (forall c, In c r -> In c clients).
Proof.
  intros Hnd Hin Hopen Hty r.
  assert (Hr : r = List.filter (fun c => negb (Nat.eqb c ws)) clients).
  { unfold r. rewrite on_message_ice by assumption. simpl.
    rewrite recipients_broadcast. apply filter_ext_in. intros c Hc.
    rewrite (Hopen c Hc). simpl. apply andb_true_r. }
  assert (Hmem : forall c, In c r <-> In c clients /\ c <> ws).
  { intros c. rewrite Hr, filter_In, negb_true_iff, Nat.eqb_neq. reflexivity. }
  split; [rewrite Hr; apply length_filter_other; assumption|].
  split; [rewrite Hr; apply List.NoDup_filter; assumption|].
  split; [rewrite Hmem; tauto|].
  split; intros c; rewrite Hmem; tauto.
Qed.

Lemma ice_broadcast_others_witness :
  let r := recipients (on_message IndexJs 1%nat [0%nat; 1%nat; 2%nat] (fun _ => OPEN)
             (Some (JObj [("type", JStr "ice-candidate"); ("candidate", JStr "c")]))).2 in
  length r = 2%nat /\ List.NoDup r /\ ~ In 1%nat r /\
  (forall c, In c [0%nat; 1%nat; 2%nat] -> c <> 1%nat -> In c r) /\
  (forall c, In c r -> In c [0%nat; 1%nat; 2%nat]).
Proof.
  apply (ice_broadcast_others IndexJs 1%nat [0%nat; 1%nat; 2%nat] (fun _ => OPEN)
           [("type", JStr "ice-candidate"); ("candidate", JStr "c")]).
  - repeat constructor; simpl; intuition lia.
  - simpl. tauto.
  - reflexivity.
  - reflexivity.
Defined.

(** Claim C10: an [ice-candidate] reaches exactly the registered
    connections other than the sender whose [readyState] is [OPEN]; every
    other registered connection is reached iff every one of them is open. *)
Theorem ice_broadcast_open_only (v : variant) (ws : conn) (clients : list conn)
    (ready : conn -> ready_state) (fs : list (string * json)) :
  obj_get fs "type" = Some (JStr "ice-candidate") ->
  let r := recipients (on_message v ws clients ready (Some (JObj fs))).2 in
  (forall c, In c r <-> In c clients /\ c <> ws /\ ready c = OPEN) /\
  ((forall c, In c clients -> c <> ws -> In c r) <->
   (forall c, In c clients -> c <> ws -> ready c = OPEN)).
Proof.
  intros Hty r.
  assert (Hmem : forall c, In c r <-> In c clients /\ c <> ws /\ ready c = OPEN).
  { intros c. unfold r. rewrite on_message_ice by assumption. simpl.
    apply in_recipients_ice. }
  split; [exact Hmem|].
  split; intros H c Hc Hne.
  - apply (proj1 (Hmem c) (H c Hc Hne)).
  - apply Hmem. auto.
Qed.

Lemma ice_broadcast_open_only_witness :
  let r := recipients (on_message Part001 0%nat [0%nat; 1%nat; 2%nat]
             (fun c => if Nat.eqb c 2 then CLOSING else OPEN)
             (Some (JObj [("type", JStr "ice-candidate")]))).2 in
  (forall c, In c r <-> In c [0%nat; 1%nat; 2%nat] /\ c <> 0%nat /\
                        (if Nat.eqb c 2 then CLOSING else OPEN) = OPEN) /\
  ((forall c, In c [0%nat; 1%nat; 2%nat] -> c <> 0%nat -> In c r) <->
   (forall c, In c [0%nat; 1%nat; 2%nat] -> c <> 0%nat ->
              (if Nat.eqb c 2 then CLOSING else OPEN) = OPEN)).
Proof.
  apply (ice_broadcast_open_only Part001 0%nat [0%nat; 1%nat; 2%nat]
           (fun c => if Nat.eqb c 2 then CLOSING else OPEN)
           [("type", JStr "ice-candidate")]).
  reflexivity.
Defined.

Lemma recipients_on_error (v : variant) (ws : conn) (c : conn) :
  In c (recipients (on_error v ws)) -> c = ws.
Proof. destruct v; simpl; intuition. Qed.

(** The [type] values the switch has a case for. *)
Definition known_type (ty : option json) : bool :=
  match ty with
  | Some (JStr t) => String.eqb t "offer" || String.eqb t "answer" ||
                     String.eqb t "ice-candidate"
  | _ => false
  end.

(** Claim C6: whatever arrives, the handler leaves the client set as it
    is and closes no connection. A payload [JSON.parse] rejects, or one
    whose [.type] throws ([null]), lands in the catch block: a log line
    first, then at most an error answer to the sender itself. A parsed
    payload with no known [type] is logged as unknown and nothing else. *)
Theorem malformed_message_kept (v : variant) (ws : conn) (clients : list conn)
    (ready : conn -> ready_state) (message : parsed) :
  let res := on_message v ws clients ready message in
  res.1 = clients /\ closed_by res.2 = [] /\
  ((message = None \/ message = Some JNull) ->
     res.2 = on_error v ws /\
     (exists line rest, on_error v ws = Log line :: rest) /\
     (forall c, In c (recipients res.2) -> c = ws)) /\
  (forall data ty, message = Some data -> get_prop data "type" = inr ty ->
     known_type ty = false ->
     res.2 = [Log "Received"; Log "Unknown message type"]).
Proof.
  intros res.
  assert (Herr : (message = None \/ message = Some JNull) -> res.2 = on_error v ws).
  { intros [-> | ->]; reflexivity. }
  split; [|split; [|split]].
  - unfold res, on_message. destruct message as [data |]; [|reflexivity].
    destruct (get_prop data "type"); reflexivity.
  - unfold res, on_message. destruct message as [data |]; [|destruct v; reflexivity].
    destruct (get_prop data "type") as [_ | ty]; [destruct v; reflexivity|].
    destruct ty as [[| | | t | |] |]; try reflexivity.
    cbn [snd]. unfold closed_by. cbn [flat_map app].
    destruct (String.eqb t "offer"); [reflexivity|].
    destruct (String.eqb t "answer"); [reflexivity|].
    destruct (String.eqb t "ice-candidate"); [|reflexivity].
    apply closed_by_broadcast.
  - intros Hm. split; [apply Herr, Hm|]. split.
    + destruct v; eexists; eexists; reflexivity.
    + rewrite (Herr Hm). apply recipients_on_error.
  - intros data ty -> Hty Hk. unfold res, on_message. rewrite Hty.
    destruct ty as [[| | | t | |] |]; try reflexivity.
    simpl in Hk. apply orb_false_iff in Hk as [Hk Hice].
    apply orb_false_iff in Hk as [Hoffer Hanswer].
    cbn [snd]. rewrite Hoffer, Hanswer, Hice. reflexivity.
Qed.

Lemma malformed_message_kept_witness :
  let res := on_message IndexJs 0%nat [0%nat; 1%nat] (fun _ => OPEN) None in
  res.2 = on_error IndexJs 0%nat /\
  (exists line rest, on_error IndexJs 0%nat = Log line :: rest) /\
  (forall c, In c (recipients res.2) -> c = 0%nat).
Proof.
  apply (proj1 (proj2 (proj2
    (malformed_message_kept IndexJs 0%nat [0%nat; 1%nat] (fun _ => OPEN) None)))).
  left. reflexivity.
Defined.

End RelayFacts.

Module ReceiverFacts.
Import Receiver.

(** Total byte length of a list of chunks. *)
Definition total (cs : list bytes) : Z := fold_right (fun c a => byteLength c + a) 0 cs.

Lemma total_concat (cs : list bytes) : byteLength (concat cs) = total cs.
Proof.
  unfold byteLength. induction cs as [| c cs IH]; simpl; [reflexivity|].
  rewrite length_app, Nat2Z.inj_add, IH. reflexivity.
Qed.

Lemma total_nonneg (cs : list bytes) : 0 <= total cs.
Proof. induction cs as [| c cs IH]; simpl; unfold byteLength; lia. Qed.

Lemma total_pos (cs : list bytes) :
  Forall (fun c => (0 < length c)%nat) cs -> cs <> [] -> 0 < total cs.
Proof.
  intros Hall Hne. destruct cs as [| c cs]; [congruence|].
  inversion Hall; subst. simpl. pose proof (total_nonneg cs). unfold byteLength. lia.
Qed.

Lemma metadata_size (name ty : string) (S : Z) :
  get_prop (metadata_json name S ty) "size" = inr (Some (JNum S)).
Proof. reflexivity. Qed.

Lemma total_cons (c : bytes) (cs : list bytes) : total (c :: cs) = byteLength c + total cs.
Proof. reflexivity. Qed.

Lemma total_app' (a b : list bytes) : total (a ++ b) = total a + total b.
Proof. unfold total. rewrite fold_right_app. induction a as [| c a IH]; simpl; lia. Qed.

(** A binary frame after a metadata record declaring [sz]: the chunk is
    counted, and the completion fires when the running total is [sz]. *)
Lemma recv_chunk (md : json) (sz acc : Z) (pre : list bytes) (c : bytes) :
  get_prop md "size" = inr (Some (JNum sz)) ->
  receiveFile (mkState acc pre md) (DBinary c) =
  mkOutcome (mkState (acc + byteLength c) (pre ++ [c]) md)
    (if Z.eqb (acc + byteLength c) sz
     then [mkArtifact (concat (pre ++ [c])) (blob_type_of (prop_or_undef md "fileType"))
             (prop_or_undef md "name")]
     else []) false.
Proof.
  intros H. unfold receiveFile. cbn [fileMetadata receivedChunks receivedSize].
  rewrite H. cbv iota. destruct (Z.eqb _ sz); reflexivity.
Qed.

Lemma recv_chunk_meta (name ty : string) (S acc : Z) (pre : list bytes) (c : bytes) :
  receiveFile (mkState acc pre (metadata_json name S ty)) (DBinary c) =
  mkOutcome (mkState (acc + byteLength c) (pre ++ [c]) (metadata_json name S ty))
    (if Z.eqb (acc + byteLength c) S
     then [mkArtifact (concat (pre ++ [c])) (blob_type_of (Some (JStr ty))) (Some (JStr name))]
     else []) false.
Proof. exact (recv_chunk (metadata_json name S ty) S acc pre c eq_refl). Qed.

(** Feeding the chunks of a file after its metadata: silence until the
    last one, which fires the completion with every chunk received. *)
Lemma feed_chunks (name ty : string) (S : Z) (cs : list bytes) :
  forall (acc : Z) (pre : list bytes),
  Forall (fun c => (0 < length c)%nat) cs -> cs <> [] ->
  acc + total cs = S ->
  let os := (run (mkState acc pre (metadata_json name S ty)) (map DBinary cs)).2 in
  map o_fired os =
    repeat [] (length cs - 1) ++
    [[mkArtifact (concat (pre ++ cs)) (blob_type_of (Some (JStr ty))) (Some (JStr name))]] /\
  Forall (fun o => o_threw o = false) os.
Proof.
  induction cs as [| c cs IH]; intros acc pre Hall Hne Hsum; [congruence|].
  apply Forall_cons in Hall as [Hc Hcs].
  simpl in Hsum. cbn [map run]. rewrite recv_chunk_meta. cbn [o_state].
  destruct cs as [| c' cs'].
  - simpl in Hsum. rewrite (proj2 (Z.eqb_eq _ _)) by lia. simpl.
    split; [reflexivity|]. repeat constructor.
  - assert (Hpos : 0 < total (c' :: cs')) by (apply total_pos; [assumption | congruence]).
    rewrite (proj2 (Z.eqb_neq _ _)) by lia.
    destruct (IH (acc + byteLength c) (pre ++ [c]) Hcs ltac:(congruence) ltac:(lia))
      as [IH1 IH2].
    destruct (run _ (map DBinary (c' :: cs'))) as [s' os'] eqn:E.
    simpl in IH1, IH2 |- *. rewrite <- app_assoc in IH1.
    split; [rewrite IH1; simpl; rewrite Nat.sub_0_r; reflexivity|].
    constructor; [reflexivity | exact IH2].
Qed.

(** The outcome of the chunk of index [k] (from 0) of [cs], fed after
    the metadata [md] from the running total [acc] and the chunks [pre]. *)
Definition chunk_outcome (md : json) (sz acc : Z) (pre cs : list bytes) (k : nat) : outcome :=
  let p := firstn (Datatypes.S k) cs in
  mkOutcome (mkState (acc + total p) (pre ++ p) md)
    (if Z.eqb (acc + total p) sz
     then [mkArtifact (concat (pre ++ p)) (blob_type_of (prop_or_undef md "fileType"))
             (prop_or_undef md "name")]
     else []) false.

Lemma feed_general (md : json) (sz : Z) :
  get_prop md "size" = inr (Some (JNum sz)) ->
  forall cs acc pre,
  run (mkState acc pre md) (map DBinary cs) =
  (mkState (acc + total cs) (pre ++ cs) md,
   map (chunk_outcome md sz acc pre cs) (seq 0 (length cs))).
Proof.
  intros Hmd. induction cs as [| c cs IH]; intros acc pre.
  - simpl. rewrite Z.add_0_r, app_nil_r. reflexivity.
  - cbn [map run]. rewrite (recv_chunk md sz acc pre c Hmd). cbn [o_state].
    rewrite IH. cbn [length seq map].
    rewrite <- seq_shift, map_map, total_cons, Z.add_assoc, <- app_assoc.
    f_equal. f_equal.
    + unfold chunk_outcome. cbn [firstn]. rewrite total_cons. cbn [total fold_right].
      rewrite Z.add_0_r. reflexivity.
    + apply map_ext. intros k. unfold chunk_outcome. cbn [firstn].
      rewrite total_cons, Z.add_assoc, <- app_assoc. reflexivity.
Qed.

(** A session: the metadata record, then the chunks. *)
Lemma session (s : state) (md : json) (sz : Z) (cs : list bytes) :
  get_prop md "size" = inr (Some (JNum sz)) ->
  run s (DString (Some md) :: map DBinary cs) =
  (mkState (total cs) cs md,
   mkOutcome (mkState 0 [] md) [] false ::
     map (chunk_outcome md sz 0 [] cs) (seq 0 (length cs))).
Proof.
  intros H. destruct md as [| | | | | fs]; try discriminate H.
  cbn [run receiveFile get_prop o_state]. rewrite (feed_general _ sz H cs 0 []).
  reflexivity.
Qed.

Lemma session_fired_map (s : state) (md : json) (sz : Z) (cs : list bytes) :
  get_prop md "size" = inr (Some (JNum sz)) ->
  map o_fired (run s (DString (Some md) :: map DBinary cs)).2 =
    [] :: map (fun k => let p := firstn (Datatypes.S k) cs in
                        if Z.eqb (total p) sz
                        then [mkArtifact (concat p) (blob_type_of (prop_or_undef md "fileType"))
                                (prop_or_undef md "name")]
                        else [])
              (seq 0 (length cs)).
Proof.
  intros H. rewrite (session s md sz cs H). cbn [snd map]. rewrite map_map. reflexivity.
Qed.

Lemma fired_concat (os : list outcome) : fired os = concat (map o_fired os).
Proof. unfold fired. apply flat_map_concat_map. Qed.

Lemma map_all_eq {A B} (f : A -> B) (y : B) (l : list A) :
  (forall x, In x l -> f x = y) -> map f l = repeat y (length l).
Proof.
  induction l as [| x l IH]; intros H; simpl; [reflexivity|].
  rewrite (H x (or_introl eq_refl)), IH; [reflexivity|]. intros z Hz. apply H. right. exact Hz.
Qed.

Lemma concat_repeat_single {A} (x : A) (k : nat) : concat (repeat [x] k) = repeat x k.
Proof. induction k as [| k IH]; simpl; [reflexivity | rewrite IH; reflexivity]. Qed.

Lemma concat_repeat_empty {A} (k : nat) : concat (repeat ([] : list A) k) = [].
Proof. induction k as [| k IH]; simpl; [reflexivity | exact IH]. Qed.

Lemma firstn_repeat_min {A} (x : A) (n k : nat) : firstn n (repeat x k) = repeat x (Nat.min n k).
Proof.
  revert k. induction n as [| n IH]; intros k; [reflexivity|].
  destruct k as [| k]; simpl; [reflexivity | rewrite IH; reflexivity].
Qed.

Lemma total_repeat_empty (k : nat) : total (repeat [] k) = 0.
Proof. rewrite <- total_concat, concat_repeat_empty. reflexivity. Qed.

Lemma byteLength_pos (c : bytes) : c <> [] -> 0 < byteLength c.
Proof. intros H. destruct c; [congruence|]. unfold byteLength. simpl. lia. Qed.

(** Chunks summing to [sz] whose last chunk is nonempty: only the last
    one brings the running total to [sz]. *)
Lemma session_last (s : state) (md : json) (sz : Z) (pre : list bytes) (c : bytes) :
  get_prop md "size" = inr (Some (JNum sz)) -> c <> [] -> total (pre ++ [c]) = sz ->
  map o_fired (run s (DString (Some md) :: map DBinary (pre ++ [c]))).2 =
    repeat [] (length (pre ++ [c])) ++
    [[mkArtifact (concat (pre ++ [c])) (blob_type_of (prop_or_undef md "fileType"))
        (prop_or_undef md "name")]].
Proof.
  intros Hmd Hc Htot. rewrite (session_fired_map s md sz _ Hmd).
  rewrite length_app. cbn [length]. rewrite Nat.add_1_r, seq_S, map_app. cbn [map].
  rewrite (map_all_eq _ []).
  - rewrite length_seq. cbn [Nat.add].
    rewrite (firstn_all2 (pre ++ [c])) by (rewrite length_app; simpl; lia).
    rewrite (proj2 (Z.eqb_eq _ _) Htot). reflexivity.
  - intros k Hk. apply in_seq in Hk.
    assert (E : total (pre ++ [c]) =
                total (firstn (Datatypes.S k) (pre ++ [c])) +
                total (skipn (Datatypes.S k) (pre ++ [c])))
      by (rewrite <- total_app', firstn_skipn; reflexivity).
    rewrite skipn_app, (proj2 (Nat.sub_0_le _ _)) in E by lia.
    cbn [skipn] in E.
    assert (E' : total (skipn (Datatypes.S k) pre ++ [c]) =
                 total (skipn (Datatypes.S k) pre) + byteLength c)
      by (rewrite total_app'; simpl; lia).
    pose proof (byteLength_pos c Hc). pose proof (total_nonneg (skipn (Datatypes.S k) pre)).
    rewrite (proj2 (Z.eqb_neq _ _)) by lia. reflexivity.
Qed.

(** Zero-length chunks after chunks summing to [sz] each fire the same
    completion again: the state was not reset. *)
Lemma session_trailing (s : state) (md : json) (sz : Z) (cs : list bytes) (k : nat) :
  get_prop md "size" = inr (Some (JNum sz)) -> total cs = sz ->
  fired (run s (DString (Some md) :: map DBinary (cs ++ repeat [] k))).2 =
  fired (run s (DString (Some md) :: map DBinary cs)).2 ++
    repeat (mkArtifact (concat cs) (blob_type_of (prop_or_undef md "fileType"))
              (prop_or_undef md "name")) k.
Proof.
  intros Hmd Htot. rewrite !fired_concat, !(session_fired_map s md sz _ Hmd).
  cbn [concat app]. rewrite length_app, repeat_length, seq_app, map_app, concat_app.
  f_equal.
  - f_equal. apply map_ext_in. intros j Hj. apply in_seq in Hj.
    rewrite firstn_app, (proj2 (Nat.sub_0_le _ _)) by lia. cbn [firstn]. rewrite app_nil_r.
    reflexivity.
  - rewrite (map_all_eq _ [mkArtifact (concat cs) (blob_type_of (prop_or_undef md "fileType"))
                           (prop_or_undef md "name")]).
    + rewrite length_seq, concat_repeat_single. reflexivity.
    + intros j Hj. apply in_seq in Hj.
      rewrite firstn_app, firstn_all2 by lia. rewrite firstn_repeat_min.
      rewrite total_app', total_repeat_empty, Z.add_0_r, (proj2 (Z.eqb_eq _ _) Htot).
      rewrite concat_app, concat_repeat_empty, app_nil_r. reflexivity.
Qed.

(** Declared size 0: each zero-length chunk before the first nonempty
    one fires a completion of the empty blob, and nothing fires after. *)
Lemma session_zero (s : state) (md : json) (k : nat) (c : bytes) (rest : list bytes) :
  get_prop md "size" = inr (Some (JNum 0)) -> c <> [] ->
  fired (run s (DString (Some md) :: map DBinary (repeat [] k ++ c :: rest))).2 =
    repeat (mkArtifact [] (blob_type_of (prop_or_undef md "fileType"))
              (prop_or_undef md "name")) k.
Proof.
  intros Hmd Hc. rewrite fired_concat, (session_fired_map s md 0 _ Hmd).
  cbn [concat app]. rewrite length_app, repeat_length, seq_app, map_app, concat_app.
  rewrite (map_all_eq _ [mkArtifact [] (blob_type_of (prop_or_undef md "fileType"))
                           (prop_or_undef md "name")] (seq 0 k)).
  - rewrite (map_all_eq _ []).
    + rewrite length_seq, concat_repeat_single, concat_repeat_empty, app_nil_r. reflexivity.
    + intros j Hj. apply in_seq in Hj. cbn [length] in Hj.
      rewrite firstn_app, firstn_repeat_min, repeat_length.
      replace (Datatypes.S j - k)%nat with (Datatypes.S (j - k)) by lia. cbn [firstn].
      rewrite total_app', total_repeat_empty, total_cons.
      pose proof (byteLength_pos c Hc). pose proof (total_nonneg (firstn (j - k) rest)).
      rewrite (proj2 (Z.eqb_neq _ _)) by lia. reflexivity.
  - intros j Hj. apply in_seq in Hj.
    rewrite firstn_app, firstn_repeat_min, repeat_length,
      (proj2 (Nat.sub_0_le _ _)) by lia.
    cbn [firstn]. rewrite app_nil_r, total_repeat_empty, concat_repeat_empty. reflexivity.
Qed.

(** Claim C2 as the code has it fails: a zero-length chunk arriving once
    the running total already equals the declared size fires a second
    completion for the same file. *)
Lemma receiver_fires_twice :
  let meta := metadata_json "a.txt" 5 "text/plain" in
  let five := repeat Byte.x61 5 in
  fired (run init [DString (Some meta); DBinary five; DBinary []]).2 =
    [mkArtifact five "text/plain" (Some (JStr "a.txt"));
     mkArtifact five "text/plain" (Some (JStr "a.txt"))].
Proof. reflexivity. Qed.

(** Claim C2, amended: after a metadata record declaring size [S], from
    any earlier state, no call of the handler throws, and the chunk of
    index [k] fires a completion exactly when the running total (the
    lengths of the first [k+1] chunks) equals [S]; the completion is the
    blob of those chunks, of byte length [S], with the declared
    [fileType] as [new Blob] normalises it and the declared [name]. The
    state keeps the received chunks (no reset). Hence: chunks summing
    to [S] with a nonempty last chunk fire exactly one completion, on
    the last chunk; each zero-length chunk after them fires it again;
    and for [S = 0], each zero-length chunk before the first nonempty
    one fires a completion of the empty blob, and nothing fires after. *)
Theorem receiver_single_completion (s : state) (md : json) (S : Z) (cs : list bytes) :
  get_prop md "size" = inr (Some (JNum S)) ->
  let art p := mkArtifact p (blob_type_of (prop_or_undef md "fileType"))
                 (prop_or_undef md "name") in
  let r := run s (DString (Some md) :: map DBinary cs) in
  Forall (fun o => o_threw o = false) r.2 /\
  map o_fired r.2 =
    [] :: map (fun k => let p := firstn (Datatypes.S k) cs in
                        if Z.eqb (total p) S then [art (concat p)] else [])
              (seq 0 (length cs)) /\
  r.1 = mkState (total cs) cs md /\
  (forall a, In a (fired r.2) -> byteLength (blob_bytes a) = S) /\
  (forall pre c, cs = pre ++ [c] -> c <> [] -> total cs = S ->
     map o_fired r.2 = repeat [] (length cs) ++ [[art (concat cs)]]) /\
  (forall k, total cs = S ->
     fired (run s (DString (Some md) :: map DBinary (cs ++ repeat [] k))).2 =
     fired r.2 ++ repeat (art (concat cs)) k) /\
  (S = 0 -> forall k c rest, c <> [] -> cs = repeat [] k ++ c :: rest ->
     fired r.2 = repeat (art []) k).
Proof.
  intros Hmd art r. split; [|split; [|split; [|split; [|split; [|split]]]]].
  - unfold r. rewrite (session s md S cs Hmd). cbn [snd]. constructor; [reflexivity|].
    apply List.Forall_forall. intros o Ho. apply in_map_iff in Ho as (k & <- & _).
    reflexivity.
  - exact (session_fired_map s md S cs Hmd).
  - unfold r. rewrite (session s md S cs Hmd). reflexivity.
  - intros a Ha. unfold r in Ha. rewrite fired_concat, (session_fired_map s md S cs Hmd) in Ha.
    cbn [concat app] in Ha. apply in_concat in Ha as (l & Hl & Ha).
    apply in_map_iff in Hl as (k & <- & _).
    destruct (Z.eqb_spec (total (firstn (Datatypes.S k) cs)) S) as [E | _]; [|destruct Ha].
    destruct Ha as [<- | []]. cbn [blob_bytes]. rewrite total_concat. exact E.
  - intros pre c -> Hc Htot. exact (session_last s md S pre c Hmd Hc Htot).
  - intros k Htot. exact (session_trailing s md S cs k Hmd Htot).
  - intros -> k c rest Hc ->. exact (session_zero s md k c rest Hmd Hc).
Qed.

Lemma receiver_single_completion_witness :
  get_prop (metadata_json "f" 5 "Image/PNG") "size" = inr (Some (JNum 5)) /\
  let md := metadata_json "f" 5 "Image/PNG" in
  let cs := [repeat Byte.x00 3; repeat Byte.x01 2] in
  let art p := mkArtifact p (blob_type_of (prop_or_undef md "fileType"))
                 (prop_or_undef md "name") in
  let r := run init (DString (Some md) :: map DBinary cs) in
  Forall (fun o => o_threw o = false) r.2 /\
  map o_fired r.2 =
    [] :: map (fun k => let p := firstn (Datatypes.S k) cs in
                        if Z.eqb (total p) 5 then [art (concat p)] else [])
              (seq 0 (length cs)) /\
  r.1 = mkState (total cs) cs md /\
  (forall a, In a (fired r.2) -> byteLength (blob_bytes a) = 5) /\
  (forall pre c, cs = pre ++ [c] -> c <> [] -> total cs = 5 ->
     map o_fired r.2 = repeat [] (length cs) ++ [[art (concat cs)]]) /\
  (forall k, total cs = 5 ->
     fired (run init (DString (Some md) :: map DBinary (cs ++ repeat [] k))).2 =
     fired r.2 ++ repeat (art (concat cs)) k) /\
  (5 = 0 -> forall k c rest, c <> [] -> cs = repeat [] k ++ c :: rest ->
     fired r.2 = repeat (art []) k).
Proof.
  split; [reflexivity|].
  exact (receiver_single_completion init (metadata_json "f" 5 "Image/PNG") 5
           [repeat Byte.x00 3; repeat Byte.x01 2] eq_refl).
Defined.

(** Claim C5: a binary message before any metadata: the chunk is pushed
    and counted, then [fileMetadata.size] on [null] throws a TypeError
    out of the handler; no completion fires. *)
Theorem binary_before_metadata_throws (d : bytes) :
  receiveFile init (DBinary d) = mkOutcome (mkState (byteLength d) [d] JNull) [] true.
Proof. reflexivity. Qed.

End ReceiverFacts.

Module SenderFacts.
Import Sender.

Lemma length_slice (f : file) (o : Z) :
  0 <= o ->
  length (slice f o (o + chunkSize)) =
  Nat.min (Z.to_nat chunkSize) (length (fbytes f) - Z.to_nat o).
Proof.
  intros Ho. unfold slice, chunkSize.
  replace (o + 16384 - o) with 16384 by lia.
  rewrite length_firstn, length_skipn. reflexivity.
Qed.

(** The reads issued from [offset] on: one read, one chunk of at most
    [chunkSize] bytes, the next read at the advanced offset, ..., and
    the chunks are the file from [offset] to its end. *)
Lemma onload_shape (f : file) (fuel : nat) :
  forall o : Z, 0 <= o <= fsize f -> (Z.to_nat (fsize f - o) < fuel)%nat ->
  exists cs : list bytes,
    ReadSlice o :: onload fuel f o = interleave o cs ++ [FileSent] /\
    concat cs = skipn (Z.to_nat o) (fbytes f) /\
    Forall (fun c => (length c <= Z.to_nat chunkSize)%nat) cs /\
    cs <> [].
Proof.
  unfold fsize. induction fuel as [| fuel IH]; intros o Ho Hfuel; [lia|].
  pose proof (length_slice f o (proj1 Ho)) as Hlen.
  set (r := slice f o (o + chunkSize)) in *.
  change chunkSize with 16384 in Hlen.
  assert (Hr : (length r = Z.to_nat 16384 /\ Z.to_nat 16384 <= length (fbytes f) - Z.to_nat o)%nat \/
               (length r = length (fbytes f) - Z.to_nat o /\
                length (fbytes f) - Z.to_nat o <= Z.to_nat 16384)%nat) by lia.
  cbn [onload]. fold r. fold (fsize f).
  destruct (Z.ltb_spec (o + Z.of_nat (length r)) (fsize f)) as [Hlt | Hge].
  - unfold fsize in Hlt.
    destruct (IH (o + Z.of_nat (length r))) as (cs & Hshape & Hcat & Hsz & Hne);
      [unfold fsize; lia | unfold fsize; lia |].
    exists (r :: cs). split; [|split; [|split]].
    + simpl. rewrite <- Hshape. reflexivity.
    + simpl. rewrite Hcat.
      replace (Z.to_nat (o + Z.of_nat (length r))) with
        (Z.to_nat chunkSize + Z.to_nat o)%nat.
      * unfold r, slice. replace (o + chunkSize - o) with chunkSize by lia.
        rewrite <- skipn_skipn. apply firstn_skipn.
      * unfold chunkSize, fsize in *. lia.
    + constructor; [unfold chunkSize; lia | exact Hsz].
    + discriminate.
  - exists [r]. split; [|split; [|split]].
    + reflexivity.
    + simpl. rewrite app_nil_r. unfold r, slice. apply firstn_all2.
      rewrite length_skipn. unfold fsize in Hge. unfold chunkSize. lia.
    + constructor; [unfold chunkSize; lia | constructor].
    + discriminate.
Qed.

Lemma sent_chunks_interleave (o : Z) (cs : list bytes) :
  sent_chunks (interleave o cs ++ [FileSent]) = cs.
Proof.
  revert o. induction cs as [| c cs IH]; intros o; [reflexivity|].
  simpl. unfold sent_chunks in *. simpl. f_equal. apply IH.
Qed.

Lemma sent_strings_interleave (o : Z) (cs : list bytes) :
  sent_strings (interleave o cs ++ [FileSent]) = [].
Proof.
  revert o. induction cs as [| c cs IH]; intros o; [reflexivity|].
  simpl. unfold sent_strings in *. simpl. apply IH.
Qed.

(** Claim C3 fails on the record's field names: the metadata message has
    [fileType], not [mimeType]. *)
Lemma metadata_has_no_mimeType :
  let f := mkFile "a.bin" "application/octet-stream" (repeat Byte.x00 (Z.to_nat 40000)) in
  get_prop (metadata f) "mimeType" = inr None /\
  get_prop (metadata f) "fileType" = inr (Some (JStr "application/octet-stream")).
Proof. split; reflexivity. Qed.

(** Claim C3, amended: [sendFiles] sends the first selected file, of
    size [S]: exactly one string message first, the record
    [{type: 'metadata', name, size, fileType}]; then, read after read
    from offset 0, each read at the offset the previous chunk advanced
    to and issued only after that chunk was sent, binary chunks of at
    most 16384 bytes which together are the file ([S] bytes); the run
    ends with the local status and no end-of-stream frame. A
    40000-byte file is sent as chunks of 16384, 16384 and 7232 bytes. *)
Theorem sender_framing :
  (forall (f : file) (rest : list file) (fuel : nat),
     (Z.to_nat (fsize f) < fuel)%nat ->
     exists cs : list bytes,
       sendFiles fuel (f :: rest) = Some (SendStr (metadata f) :: interleave 0 cs ++ [FileSent]) /\
       sent_strings (SendStr (metadata f) :: interleave 0 cs ++ [FileSent]) = [metadata f] /\
       sent_chunks (SendStr (metadata f) :: interleave 0 cs ++ [FileSent]) = cs /\
       concat cs = fbytes f /\
       Z.of_nat (length (concat cs)) = fsize f /\
       Forall (fun c => (length c <= Z.to_nat chunkSize)%nat) cs) /\
  (forall (name ty : string) (rest : list file),
     option_map (fun acts => map (fun c => Z.of_nat (length c)) (sent_chunks acts))
       (sendFiles 10 (mkFile name ty (repeat Byte.x00 (Z.to_nat 40000)) :: rest))
     = Some [16384; 16384; 7232]).
Proof.
  split.
  - intros f rest fuel Hfuel.
    destruct (onload_shape f fuel 0) as (cs & Hshape & Hcat & Hsz & _);
      [unfold fsize; lia | rewrite Z.sub_0_r; exact Hfuel |].
    exists cs. simpl sendFiles. rewrite Hshape.
    split; [reflexivity|]. split; [|split; [|split; [|split]]].
    + unfold sent_strings. simpl. fold (sent_strings (interleave 0 cs ++ [FileSent])).
      rewrite sent_strings_interleave. reflexivity.
    + unfold sent_chunks. simpl. fold (sent_chunks (interleave 0 cs ++ [FileSent])).
      apply sent_chunks_interleave.
    + exact Hcat.
    + rewrite Hcat. reflexivity.
    + exact Hsz.
  - intros name ty rest. vm_compute. reflexivity.
Qed.

Lemma sender_framing_witness :
  exists cs : list bytes,
    sendFiles 3 [mkFile "x" "text/plain" [Byte.x41; Byte.x42]] =
      Some (SendStr (metadata (mkFile "x" "text/plain" [Byte.x41; Byte.x42])) ::
            interleave 0 cs ++ [FileSent]) /\
    sent_strings (SendStr (metadata (mkFile "x" "text/plain" [Byte.x41; Byte.x42])) ::
                  interleave 0 cs ++ [FileSent]) =
      [metadata (mkFile "x" "text/plain" [Byte.x41; Byte.x42])] /\
    sent_chunks (SendStr (metadata (mkFile "x" "text/plain" [Byte.x41; Byte.x42])) ::
                 interleave 0 cs ++ [FileSent]) = cs /\
    concat cs = [Byte.x41; Byte.x42] /\
    Z.of_nat (length (concat cs)) = 2 /\
    Forall (fun c => (length c <= Z.to_nat chunkSize)%nat) cs.
Proof.
  apply ((proj1 sender_framing) (mkFile "x" "text/plain" [Byte.x41; Byte.x42]) [] 3%nat).
  unfold fsize; simpl; lia.
Defined.

End SenderFacts.

Module IceWaitFacts.
Import IceWait.

Lemma run_tasks_cons (w : wstate) (x : Z * task) (xs : list (Z * task)) :
  run_tasks w (x :: xs) = run_tasks (run_task w x) xs.
Proof. reflexivity. Qed.

(** Once settled, the promise stays settled at the same time. *)
Lemma resolved_stays (ts : list (Z * task)) :
  forall (w : wstate) (t : Z), resolved_at w = Some t -> resolved_at (run_tasks w ts) = Some t.
Proof.
  induction ts as [| [t' k] ts IH]; intros w t H; [exact H|].
  rewrite run_tasks_cons. apply IH.
  destruct w as [r l]; simpl in H; subst r. unfold run_task.
  destruct k as [g |]; simpl; [destruct (l && is_complete g)|]; reflexivity.
Qed.

Lemma earliest_bound (l : list (Z * gathering)) :
  forall t t', Forall (fun x => t <= x.1) l -> earliest_complete l = Some t' -> t <= t'.
Proof.
  induction l as [| [t0 g] l IH]; intros t t' Hall H; [discriminate|].
  apply Forall_cons in Hall as [H0 Hl]. simpl in H0, H.
  destruct (is_complete g); [destruct (earliest_complete l) as [t1 |] eqn:E|].
  - injection H as <-. specialize (IH t t1 Hl eq_refl). lia.
  - injection H as <-. exact H0.
  - exact (IH t t' Hl H).
Qed.

Definition settle_time (timeout : Z) (changes : list (Z * gathering)) : Z :=
  match earliest_complete changes with Some t => Z.min t timeout | None => timeout end.

Lemma schedule_resolves (timeout : Z) (changes : list (Z * gathering)) :
  time_ordered changes ->
  resolved_at (run_tasks (mkW None true) (schedule timeout changes)) =
  Some (settle_time timeout changes).
Proof.
  unfold settle_time.
  induction changes as [| [t g] rest IH]; intros Hord; [reflexivity|].
  destruct Hord as [Hfirst Hrest]. cbn [schedule earliest_complete].
  destruct (Z.ltb_spec t timeout) as [Hlt | Hge].
  - rewrite run_tasks_cons. unfold run_task. simpl andb.
    destruct (is_complete g) eqn:Hg.
    + rewrite (resolved_stays _ _ t) by reflexivity.
      destruct (earliest_complete rest) as [t' |] eqn:E; f_equal; [|lia].
      pose proof (earliest_bound rest t t' Hfirst E). lia.
    + apply IH. exact Hrest.
  - rewrite run_tasks_cons. simpl run_task.
    rewrite (resolved_stays _ _ timeout) by reflexivity. f_equal.
    destruct (is_complete g);
      [destruct (earliest_complete rest) as [t' |] eqn:E|
       destruct (earliest_complete rest) as [t' |] eqn:E]; try lia.
    + pose proof (earliest_bound rest t t' Hfirst E). lia.
    + pose proof (earliest_bound rest t t' Hfirst E). lia.
Qed.

(** Claim C8: the wait always settles, never later than the 3000 ms
    bound: at once for a null connection or one already [complete];
    otherwise at the first change to [complete] if that comes before the
    timer, else when the timer fires at 3000 ms. *)
Theorem ice_wait_terminates (pc : option gathering) (changes : list (Z * gathering)) :
  time_ordered changes -> Forall (fun x => 0 <= x.1) changes ->
  exists t : Z,
    waitForIceGatheringComplete pc default_timeout changes = Some t /\
    0 <= t <= default_timeout /\
    t = match pc with
        | None => 0
        | Some g =>
            if is_complete g then 0
            else match earliest_complete changes with
                 | Some tc => Z.min tc default_timeout
                 | None => default_timeout
                 end
        end.
Proof.
  intros Hord Hnonneg. unfold waitForIceGatheringComplete, default_timeout.
  destruct pc as [g |]; [|exists 0; repeat split; lia].
  destruct (is_complete g); [exists 0; repeat split; lia|].
  rewrite schedule_resolves by assumption. unfold settle_time.
  destruct (earliest_complete changes) as [tc |] eqn:E.
  - pose proof (earliest_bound changes 0 tc Hnonneg E).
    exists (Z.min tc 3000). repeat split; lia.
  - exists 3000. repeat split; lia.
Qed.

Lemma ice_wait_terminates_witness :
  exists t : Z,
    waitForIceGatheringComplete (Some GNew) default_timeout
      [(100, GGathering); (2500, GComplete)] = Some t /\
    0 <= t <= default_timeout /\
    t = match Some GNew with
        | None => 0
        | Some g =>
            if is_complete g then 0
            else match earliest_complete [(100, GGathering); (2500, GComplete)] with
                 | Some tc => Z.min tc default_timeout
                 | None => default_timeout
                 end
        end.
Proof.
  apply (ice_wait_terminates (Some GNew) [(100, GGathering); (2500, GComplete)]).
  - simpl. repeat constructor; simpl; lia.
  - repeat constructor; simpl; lia.
Defined.

End IceWaitFacts.

Module ShortenFacts.
Import Shorten.

(** When shortening fails, the branch puts the raw token in the field,
    builds a 256-pixel QR code from it and reports an error; the flow
    goes on. *)
Lemma fallback_shape (new_URL : string -> string -> option string) (origin : string)
    (k : created) (token : string) (o : store_outcome) (u : ui) :
  storeTokenAndGetShortUrl origin o = None ->
  on_created new_URL origin k token o u =
    mkUi token (qr_text new_URL origin token, 256) (answerSection_shown u) true.
Proof. intros H. unfold on_created. rewrite H. reflexivity. Qed.

Lemma store_failures (origin : string) (body : option json) :
  storeTokenAndGetShortUrl origin FetchRejects = None /\
  storeTokenAndGetShortUrl origin (Resp false body) = None.
Proof. split; reflexivity. Qed.

Definition quote : string := String (Ascii.ascii_of_nat 34) EmptyString.

(** [JSON.stringify({type: 'offer', sdp: 'v=0\r\n'})]: the SDP line
    break is written as the two escapes backslash-r, backslash-n. *)
Definition offer_token : string :=
  "{" +:+ quote +:+ "type" +:+ quote +:+ ":" +:+ quote +:+ "offer" +:+ quote +:+ "," +:+
  quote +:+ "sdp" +:+ quote +:+ ":" +:+ quote +:+ "v=0\r\n" +:+ quote +:+ "}".

Definition page_origin : string := "https://sendu.example".

Definition blank_ui : ui := mkUi "" ("", 0) false false.

(** Claim C9 (code bug): with the Token Store unreachable, the offer
    token lands in the field and the QR code is the larger one, but
    [generateQRCode] runs even the raw JSON token through
    [new URL(text, location.origin)], which resolves it as a relative
    path: the QR code encodes an URL under the page origin, with the
    backslashes turned into slashes and the braces and quotes
    percent-encoded, not the token. *)
Theorem fallback_qr_not_raw_token (new_URL : string -> string -> option string) :
  new_URL offer_token page_origin = WhatwgUrl.relative_href offer_token page_origin ->
  let u := on_created new_URL page_origin OfferCreated offer_token FetchRejects blank_ui in
  tokenInput u = offer_token /\ (qr u).2 = 256 /\
  (qr u).1 = "https://sendu.example/%7B%22type%22:%22offer%22,%22sdp%22:%22v=0/r/n%22%7D" /\
  (qr u).1 <> offer_token.
Proof.
  intros Hurl u. unfold u. rewrite fallback_shape by reflexivity. cbn [tokenInput qr fst snd].
  unfold qr_text. rewrite Hurl.
  assert (E : WhatwgUrl.relative_href offer_token page_origin =
              Some "https://sendu.example/%7B%22type%22:%22offer%22,%22sdp%22:%22v=0/r/n%22%7D")
    by (vm_compute; reflexivity).
  rewrite E. split; [reflexivity|]. split; [reflexivity|]. split; [reflexivity|].
  vm_compute. discriminate.
Qed.

Lemma fallback_qr_not_raw_token_witness :
  let u := on_created (fun s b => WhatwgUrl.relative_href s b) page_origin OfferCreated
             offer_token FetchRejects blank_ui in
  tokenInput u = offer_token /\ (qr u).2 = 256 /\
  (qr u).1 = "https://sendu.example/%7B%22type%22:%22offer%22,%22sdp%22:%22v=0/r/n%22%7D" /\
  (qr u).1 <> offer_token.
Proof.
  apply (fallback_qr_not_raw_token (fun s b => WhatwgUrl.relative_href s b)).
  reflexivity.
Defined.

End ShortenFacts.

Module SignalStoreFacts.
Import SignalStore.

Lemma post_ok (token : string) (body : option json) (s : sstate) (v : json) :
  body_sdp body = Some v -> truthy (Some v) = true ->
  post token body s =
    (SToken token,
     mkS (<[token := mkEntry v (next_timer s)]> (delete token (store s)))
         (<[next_timer s := token]> (timers s)) (S (next_timer s))).
Proof.
  intros Hb Ht. unfold post. rewrite Hb, Ht. do 2 f_equal.
  case_bool_decide as Hs; [reflexivity|].
  rewrite delete_id; [reflexivity|]. destruct (store s !! token); [|reflexivity].
  exfalso. apply Hs. eexists. reflexivity.
Qed.

(** X2: a posted SDP is handed out by the first [GET /signal/:token],
    which deletes it: a second one answers 404. *)
Theorem signal_round_trip (token : string) (body : option json) (s : sstate) (v : json) :
  body_sdp body = Some v -> truthy (Some v) = true ->
  let s1 := (post token body s).2 in
  (post token body s).1 = SToken token /\
  (get token s1).1 = SSdp v /\
  (get token (get token s1).2).1 = SNotFound.
Proof.
  intros Hb Ht s1. unfold s1. rewrite (post_ok token body s v Hb Ht). simpl.
  split; [reflexivity|]. unfold get. simpl. rewrite lookup_insert_eq. simpl.
  split; [reflexivity|]. rewrite lookup_delete_eq. reflexivity.
Qed.

Lemma signal_round_trip_witness :
  let s1 := (post "tok" (Some (JObj [("sdp", JStr "v=0")])) empty).2 in
  (post "tok" (Some (JObj [("sdp", JStr "v=0")])) empty).1 = SToken "tok" /\
  (get "tok" s1).1 = SSdp (JStr "v=0") /\
  (get "tok" (get "tok" s1).2).1 = SNotFound.
Proof. apply (signal_round_trip "tok" _ empty (JStr "v=0")); reflexivity. Defined.

Lemma wf_empty : wf empty.
Proof. split; intros *; simpl; rewrite lookup_empty; discriminate. Qed.

Lemma wf_step (s : sstate) (e : sevent) : wf s -> wf (sstep s e).
Proof.
  intros [Hent Htm]. destruct e as [token body | token | t]; simpl.
  - destruct (body_sdp body) as [v |] eqn:Hb; [destruct (truthy (Some v)) eqn:Ht|].
    2, 3: unfold post; rewrite Hb; try rewrite Ht; split; assumption.
    rewrite (post_ok token body s v Hb Ht). split; simpl.
    + intros k e Hk. destruct (decide (k = token)) as [-> | Hne].
      * rewrite lookup_insert_eq in Hk. injection Hk as <-. simpl. apply lookup_insert_eq.
      * rewrite lookup_insert_ne, lookup_delete_ne in Hk by congruence.
        pose proof (Hent k e Hk) as He.
        rewrite lookup_insert_ne; [exact He|]. specialize (Htm _ _ He). lia.
    + intros t' k Hk. destruct (decide (t' = next_timer s)) as [-> | Hne]; [lia|].
      rewrite lookup_insert_ne in Hk by congruence. specialize (Htm _ _ Hk). lia.
  - unfold get. destruct (store s !! token) as [e0 |] eqn:E0; [|split; assumption].
    pose proof (Hent _ _ E0) as H0. split; simpl.
    + intros k e Hk. destruct (decide (k = token)) as [-> | Hne];
        [rewrite lookup_delete_eq in Hk; discriminate|].
      rewrite lookup_delete_ne in Hk by congruence. pose proof (Hent _ _ Hk) as He.
      rewrite lookup_delete_ne; [exact He|]. intros Heq. rewrite <- Heq in He. congruence.
    + intros t' k Hk. destruct (decide (t' = timeout e0)) as [-> | Hne];
        [rewrite lookup_delete_eq in Hk; discriminate|].
      rewrite lookup_delete_ne in Hk by congruence. exact (Htm _ _ Hk).
  - unfold fire. destruct (timers s !! t) as [k0 |] eqn:E0; [|split; assumption].
    split; simpl.
    + intros k e Hk. destruct (decide (k = k0)) as [-> | Hne];
        [rewrite lookup_delete_eq in Hk; discriminate|].
      rewrite lookup_delete_ne in Hk by congruence. pose proof (Hent _ _ Hk) as He.
      rewrite lookup_delete_ne; [exact He|]. intros Heq. rewrite <- Heq in He. congruence.
    + intros t' k Hk. destruct (decide (t' = t)) as [-> | Hne];
        [rewrite lookup_delete_eq in Hk; discriminate|].
      rewrite lookup_delete_ne in Hk by congruence. exact (Htm _ _ Hk).
Qed.

Lemma wf_srun (s : sstate) (es : list sevent) : wf s -> wf (srun s es).
Proof.
  unfold srun. revert s. induction es as [| e es IH]; intros s Hs; [exact Hs|].
  simpl. apply IH. apply wf_step. exact Hs.
Qed.

(** X3: in every state the server reaches, each stored SDP has a
    pending two-minute timer, and when it fires the entry is gone:
    [GET] of the token then answers 404. *)
Theorem signal_ttl (es : list sevent) (token : string) (e : entry) :
  store (srun empty es) !! token = Some e ->
  let s' := fire (timeout e) (srun empty es) in
  store s' !! token = None /\ (get token s').1 = SNotFound.
Proof.
  intros Hk s'. destruct (wf_srun empty es wf_empty) as [Hent _].
  pose proof (Hent _ _ Hk) as Ht.
  assert (E : store s' !! token = None).
  { unfold s', fire. rewrite Ht. simpl. apply lookup_delete_eq. }
  split; [exact E|]. unfold get. rewrite E. reflexivity.
Qed.

Lemma signal_ttl_witness :
  store (srun empty [Post "a" (Some (JObj [("sdp", JStr "x")]))]) !! "a"
    = Some (mkEntry (JStr "x") 0) /\
  let s' := fire (timeout (mkEntry (JStr "x") 0))
              (srun empty [Post "a" (Some (JObj [("sdp", JStr "x")]))]) in
  store s' !! "a" = None /\ (get "a" s').1 = SNotFound.
Proof.
  split; [reflexivity|]. apply signal_ttl. reflexivity.
Defined.

(** X5: on a token collision the old entry is replaced but its timer is
    not cleared: when that timer fires it deletes the new SDP, so the
    new token answers 404 before its own two minutes are up. *)
Theorem signal_collision_stale_timer (es : list sevent) (token : string)
    (old : entry) (body : option json) (v : json) :
  store (srun empty es) !! token = Some old ->
  body_sdp body = Some v -> truthy (Some v) = true ->
  let s1 := (post token body (srun empty es)).2 in
  store s1 !! token = Some (mkEntry v (next_timer (srun empty es))) /\
  timeout old <> next_timer (srun empty es) /\
  (get token (fire (timeout old) s1)).1 = SNotFound.
Proof.
  intros Hk Hb Ht s1. destruct (wf_srun empty es wf_empty) as [Hent Htm].
  pose proof (Hent _ _ Hk) as Hold. pose proof (Htm _ _ Hold) as Hlt.
  unfold s1. rewrite (post_ok token body _ v Hb Ht). simpl.
  split; [apply lookup_insert_eq|]. split; [lia|].
  unfold fire. simpl. rewrite lookup_insert_ne by lia. rewrite Hold.
  unfold get. simpl. rewrite lookup_delete_eq. reflexivity.
Qed.

Lemma signal_collision_stale_timer_witness :
  let es := [Post "a" (Some (JObj [("sdp", JStr "x")]))] in
  store (srun empty es) !! "a" = Some (mkEntry (JStr "x") 0) /\
  let s1 := (post "a" (Some (JObj [("sdp", JStr "y")])) (srun empty es)).2 in
  store s1 !! "a" = Some (mkEntry (JStr "y") (next_timer (srun empty es))) /\
  timeout (mkEntry (JStr "x") 0) <> next_timer (srun empty es) /\
  (get "a" (fire (timeout (mkEntry (JStr "x") 0)) s1)).1 = SNotFound.
Proof.
  split; [reflexivity|].
  apply (signal_collision_stale_timer [Post "a" (Some (JObj [("sdp", JStr "x")]))] "a"
           (mkEntry (JStr "x") 0) (Some (JObj [("sdp", JStr "y")])) (JStr "y"));
    reflexivity.
Defined.

End SignalStoreFacts.

Module NodePathFacts.
Import NodePath.

Lemma split_slash_nonempty (p : path) : split_slash p <> [].
Proof.
  induction p as [| c r IH]; simpl; [discriminate|].
  case_bool_decide; [discriminate|]. destruct (split_slash r); discriminate.
Qed.

Lemma split_app_slash (a b : path) :
  split_slash (a ++ slash :: b) = split_slash a ++ split_slash b.
Proof.
  induction a as [| c a IH]; simpl.
  - reflexivity.
  - case_bool_decide; [rewrite IH; reflexivity|]. rewrite IH.
    destruct (split_slash a) as [| seg segs] eqn:E;
      [exfalso; exact (split_slash_nonempty a E)|]. reflexivity.
Qed.

Lemma split_plain (seg : path) : ~ In slash seg -> split_slash seg = [seg].
Proof.
  induction seg as [| c r IH]; intros H; simpl; [reflexivity|].
  rewrite bool_decide_false by (intros ->; apply H; left; reflexivity).
  rewrite IH by (intros Hin; apply H; right; exact Hin). reflexivity.
Qed.

Lemma split_join (segs : list path) :
  Forall (fun s => ~ In slash s) segs -> segs <> [] -> split_slash (join_slash segs) = segs.
Proof.
  induction segs as [| x [| y r] IH]; intros Hall Hne; [congruence| |].
  - apply Forall_cons in Hall as [Hx _]. simpl. apply split_plain. exact Hx.
  - apply Forall_cons in Hall as [Hx Hr].
    change (join_slash (x :: y :: r)) with (x ++ slash :: join_slash (y :: r)).
    rewrite split_app_slash, split_plain by exact Hx. rewrite IH by (auto; discriminate).
    reflexivity.
Qed.

Lemma split_updots (n : nat) (r : path) :
  split_slash (concat (repeat (dotdot ++ [slash]) n) ++ r) = repeat dotdot n ++ split_slash r.
Proof.
  induction n as [| n IH]; [reflexivity|]. cbn [repeat concat].
  rewrite <- app_assoc. change ((dotdot ++ [slash]) ++ ?x) with (dotdot ++ slash :: x).
  rewrite split_app_slash, IH. reflexivity.
Qed.

Lemma norm_go_app (allow : bool) (a b : list path) :
  forall st, norm_go allow st (a ++ b) = norm_go allow (norm_go allow st a) b.
Proof.
  induction a as [| seg a IH]; intros st; [reflexivity|]. simpl.
  repeat case_match; apply IH.
Qed.

(** Without [allowAboveRoot] no [..] is ever kept, and each segment
    keeps at most one. *)
Lemma norm_go_abs (st segs : list path) :
  Forall (fun s => s <> dotdot) st ->
  Forall (fun s => s <> dotdot) (norm_go false st segs) /\
  (length (norm_go false st segs) <= length st + length segs)%nat.
Proof.
  revert st. induction segs as [| seg segs IH]; intros st Hst; simpl; [split; [exact Hst | lia]|].
  case_bool_decide as H1; [|case_bool_decide as H2]; simpl.
  - destruct (IH st Hst). split; [assumption | lia].
  - destruct (IH st Hst). split; [assumption | lia].
  - case_bool_decide as H3.
    + destruct st as [| top st'].
      * destruct (IH [] Hst). simpl in *. split; [assumption | lia].
      * apply Forall_cons in Hst as [Htop Hst']. case_bool_decide; [congruence|].
        destruct (IH st' Hst'). simpl. split; [assumption | lia].
    + destruct (IH (seg :: st)) as [Ha Hb]; [constructor; assumption|].
      simpl in Hb. split; [assumption | lia].
Qed.

Lemma norm_updots (n : nat) :
  forall st, Forall (fun s => s <> dotdot) st -> (length st <= n)%nat ->
  norm_go false st (repeat dotdot n) = [].
Proof.
  induction n as [| n IH]; intros st Hst Hlen.
  - destruct st; [reflexivity | simpl in Hlen; lia].
  - simpl.
    destruct st as [| top st'].
    + apply IH; [constructor | simpl; lia].
    + apply Forall_cons in Hst as [Htop Hst']. rewrite bool_decide_false by exact Htop.
      apply IH; [exact Hst' | simpl in Hlen; lia].
Qed.

Lemma norm_plain (allow : bool) (target : list path) :
  forall st, Forall plain_segment target -> norm_go allow st target = rev target ++ st.
Proof.
  induction target as [| seg target IH]; intros st Hall; [reflexivity|].
  apply Forall_cons in Hall as [(H1 & H2 & H3 & _) Hall]. simpl.
  rewrite !bool_decide_false by assumption. simpl. rewrite IH by exact Hall.
  rewrite <- app_assoc. reflexivity.
Qed.

Lemma last_in (p : path) (c : Ascii.ascii) : last p = Some c -> In c p.
Proof.
  induction p as [| x [| y r] IH]; intros H; [discriminate | |].
  - injection H as ->. left. reflexivity.
  - right. apply IH. exact H.
Qed.

Lemma join_last (segs : list path) :
  Forall plain_segment segs -> segs <> [] ->
  exists c, last (join_slash segs) = Some c /\ c <> slash.
Proof.
  induction segs as [| x [| y r] IH]; intros Hall Hne; [congruence| |].
  - apply Forall_cons in Hall as [(Hx & _ & _ & Hs) _]. simpl.
    destruct (last x) as [c |] eqn:E.
    + exists c. split; [reflexivity|]. intros ->. apply Hs. apply last_in. exact E.
    + destruct x as [| a x']; [congruence|]. exfalso. revert E. clear.
      revert a. induction x' as [| b x' IH]; intros a; simpl; [discriminate|].
      intros E. exact (IH b E).
  - apply Forall_cons in Hall as [_ Hr].
    destruct (IH Hr ltac:(discriminate)) as (c & Hc & Hcs).
    exists c. split; [|exact Hcs].
    change (join_slash (x :: y :: r)) with (x ++ slash :: join_slash (y :: r)).
    rewrite last_app, last_cons, Hc. reflexivity.
Qed.

Lemma join2 (p q : path) : p <> [] -> q <> [] ->
  join [Some p; Some q] = Some (normalize (p ++ slash :: q)).
Proof. intros Hp Hq. unfold join. simpl. rewrite !bool_decide_false by assumption. reflexivity. Qed.

(** X6: the [/download] route is not confined to the application
    directory: for any absolute [__dirname], enough [../] segments in
    [req.query.path] reach any absolute path of the file system, and
    [res.download] is asked for exactly that path. *)
Theorem download_escapes (dirname : path) (target : list path) :
  head dirname = Some slash -> Forall plain_segment target -> target <> [] ->
  download_path dirname
    (Some (concat (repeat (dotdot ++ [slash]) (length (split_slash dirname))) ++
           join_slash target))
  = Some (slash :: join_slash target).
Proof.
  intros Hhead Hall Hne.
  set (n := length (split_slash dirname)).
  set (q := concat (repeat (dotdot ++ [slash]) n) ++ join_slash target).
  destruct dirname as [| c d]; [discriminate|]. simpl in Hhead. injection Hhead as ->.
  destruct (join_last target Hall Hne) as (cl & Hcl & Hcls).
  assert (Hlq : last q = Some cl) by (unfold q; rewrite last_app, Hcl; reflexivity).
  assert (Hq : q <> []) by (intros E; rewrite E in Hlq; discriminate).
  unfold download_path. rewrite join2 by (try discriminate; exact Hq).
  change (normalize ((slash :: d) ++ slash :: q)) with (normalize (slash :: (d ++ slash :: q))).
  unfold normalize. cbv beta iota zeta.
  rewrite (bool_decide_true (slash = slash)) by reflexivity.
  rewrite (bool_decide_false (last _ = Some slash)).
  2:{ change (slash :: d ++ slash :: q) with ((slash :: d) ++ slash :: q).
      rewrite last_app, last_cons, Hlq. congruence. }
  change (slash :: d ++ slash :: q) with ((slash :: d) ++ slash :: q).
  rewrite split_app_slash. unfold q. rewrite split_updots.
  rewrite split_join
    by first [exact Hne | eapply Forall_impl; [exact Hall | intros s Hs; apply Hs]].
  rewrite !norm_go_app.
  destruct (norm_go_abs [] (split_slash (slash :: d)) ltac:(constructor)) as [Hdd Hlen].
  change (negb true) with false. cbn [length] in Hlen.
  rewrite norm_updots by first [exact Hdd | unfold n; lia].
  rewrite norm_plain by exact Hall. rewrite app_nil_r, rev_involutive. simpl negb.
  destruct (join_slash target) as [| j0 j'] eqn:Ej; [discriminate|]. reflexivity.
Qed.

Lemma download_escapes_witness :
  let etc := String.list_ascii_of_string "etc" in
  let passwd := String.list_ascii_of_string "passwd" in
  let app_dir := String.list_ascii_of_string "/srv/app" in
  download_path app_dir
    (Some (concat (repeat (dotdot ++ [slash]) (length (split_slash app_dir))) ++
           join_slash [etc; passwd]))
  = Some (slash :: join_slash [etc; passwd]) /\
  download_path app_dir (Some (String.list_ascii_of_string "../../../etc/passwd"))
  = Some (String.list_ascii_of_string "/etc/passwd").
Proof.
  split; [|vm_compute; reflexivity].
  apply download_escapes.
  - reflexivity.
  - apply List.Forall_forall; intros x Hx; destruct Hx as [Hx | [Hx | []]]; subst x;
      unfold plain_segment; vm_compute; repeat split; try discriminate;
      intros H; decompose [or False] H; discriminate.
  - discriminate.
Defined.

End NodePathFacts.

Module RelaySessionFacts.
Import Relay RelaySession RelayFacts.

Lemma on_message_clients (v : variant) (ws : conn) (clients : list conn)
    (ready : conn -> ready_state) (m : parsed) :
  (on_message v ws clients ready m).1 = clients.
Proof. unfold on_message. repeat case_match; reflexivity. Qed.

Lemma recipients_log (l : string) (acts : list action) :
  recipients (Log l :: acts) = recipients acts.
Proof. reflexivity. Qed.

(** A handler delivers to the sender itself or, for a candidate, to
    other open members of the set. *)
Lemma on_message_recipients (v : variant) (ws : conn) (clients : list conn)
    (ready : conn -> ready_state) (m : parsed) (c : conn) :
  In c (recipients (on_message v ws clients ready m).2) ->
  c = ws \/ (In c clients /\ c <> ws /\ ready c = OPEN).
Proof.
  assert (Herr : In c (recipients (on_error v ws)) -> c = ws)
    by (destruct v; simpl; intuition).
  unfold on_message. destruct m as [d |]; [|cbn [snd]; intros H; left; exact (Herr H)].
  destruct (get_prop d "type") as [_ | ty]; [cbn [snd]; intros H; left; exact (Herr H)|].
  cbn [snd].
  rewrite recipients_log.
  destruct ty as [[| | | t | |] |]; simpl; try tauto.
  destruct (String.eqb t "offer"); [simpl; intuition|].
  destruct (String.eqb t "answer"); [simpl; intuition|].
  destruct (String.eqb t "ice-candidate"); [|simpl; tauto].
  rewrite in_recipients_ice. tauto.
Qed.

Lemma rstep_absent (v : variant) (ready : conn -> ready_state) (clients : list conn)
    (e : revent) (c : conn) :
  ~ In c clients -> not_of c e ->
  ~ In c (rstep v ready clients e).1 /\ ~ In c (recipients (rstep v ready clients e).2).
Proof.
  intros Hc Hne. destruct e as [ws | ws m | ws]; simpl in Hne |- *.
  - split.
    + unfold on_connection. destruct (existsb (Nat.eqb ws) clients); [exact Hc|].
      rewrite in_app_iff. intros [H | [H | []]]; [contradiction | congruence].
    + unfold welcome. destruct v; [|destruct (is_open (ready ws))]; simpl; intuition congruence.
  - rewrite on_message_clients. split; [exact Hc|].
    intros H. apply on_message_recipients in H. intuition congruence.
  - split; [|intros []]. unfold on_close. rewrite filter_In. intros [H _]. contradiction.
Qed.

Lemma rrun_absent (v : variant) (ready : conn -> ready_state) (c : conn) (es : list revent) :
  forall clients, ~ In c clients -> Forall (not_of c) es ->
  ~ In c (rrun v ready clients es).1 /\ ~ In c (recipients (rrun v ready clients es).2).
Proof.
  induction es as [| e es IH]; intros clients Hc Hall; simpl; [split; [exact Hc | intros []]|].
  apply Forall_cons in Hall as [He Hes].
  destruct (rstep_absent v ready clients e c Hc He) as [H1 H2].
  destruct (rstep v ready clients e) as [cl acts] eqn:E. simpl in H1, H2.
  destruct (IH cl H1 Hes) as [H3 H4].
  destruct (rrun v ready cl es) as [cl' acts'] eqn:E'. simpl in H3, H4 |- *.
  split; [exact H3|]. rewrite recipients_app, in_app_iff. tauto.
Qed.

(** X8: once a connection has closed (or errored), it is out of the
    set and, as long as it does not send or connect again, no later
    event of the relay delivers anything to it: in particular no
    [ice-candidate] of another peer. *)
Theorem closed_gets_nothing (v : variant) (ready : conn -> ready_state)
    (clients : list conn) (c : conn) (after : list revent) :
  Forall (not_of c) after ->
  let '(cl, acts) := rrun v ready clients (Closed c :: after) in
  ~ In c cl /\ ~ In c (recipients acts).
Proof.
  intros Hall. simpl.
  assert (Hc : ~ In c (on_close c clients))
    by (unfold on_close; rewrite filter_In, negb_true_iff, Nat.eqb_neq; tauto).
  destruct (rrun_absent v ready c after _ Hc Hall) as [H1 H2].
  destruct (rrun v ready (on_close c clients) after) as [cl acts]. simpl in *.
  split; assumption.
Qed.

Lemma closed_gets_nothing_witness :
  Forall (not_of 2) [Connect 3; Message 1 (Some (JObj [("type", JStr "ice-candidate")]))] /\
  let '(cl, acts) := rrun IndexJs (fun _ => OPEN) [1; 2]%nat
                       [Closed 2; Connect 3;
                        Message 1 (Some (JObj [("type", JStr "ice-candidate")]))] in
  ~ In 2%nat cl /\ ~ In 2%nat (recipients acts).
Proof.
  split; [repeat constructor; simpl; lia|].
  apply (closed_gets_nothing IndexJs (fun _ => OPEN) [1; 2]%nat 2
           [Connect 3; Message 1 (Some (JObj [("type", JStr "ice-candidate")]))]).
  repeat constructor; simpl; lia.
Defined.

(** X9: an [offer] (or [answer]) goes back to its sender only, as an
    [offer-created] ([answer-created]) frame carrying the same payload,
    which the page's [ws.onmessage] takes into the shortening branch
    with that payload. *)
Theorem offer_answer_echo (v : variant) (ws : conn) (clients : list conn)
    (ready : conn -> ready_state) (fs : list (string * json)) (has_pc : bool) :
  (obj_get fs "type" = Some (JStr "offer") ->
   exists reply,
     (on_message v ws clients ready (Some (JObj fs))).2 = [Log "Received"; Send ws reply] /\
     ClientFlow.on_ws_message has_pc (Some reply) =
       ClientFlow.CCreated Shorten.OfferCreated (obj_get fs "offer")) /\
  (obj_get fs "type" = Some (JStr "answer") ->
   exists reply,
     (on_message v ws clients ready (Some (JObj fs))).2 = [Log "Received"; Send ws reply] /\
     ClientFlow.on_ws_message has_pc (Some reply) =
       ClientFlow.CCreated Shorten.AnswerCreated (obj_get fs "answer")).
Proof.
  split; intros H; unfold on_message; simpl; rewrite H; simpl; eexists;
    (split; [reflexivity|]).
  - destruct (obj_get fs "offer"); reflexivity.
  - destruct (obj_get fs "answer"); reflexivity.
Qed.

Lemma offer_answer_echo_witness :
  exists reply,
    (on_message Part001 1 [1; 2]%nat (fun _ => OPEN)
       (Some (JObj [("type", JStr "offer"); ("offer", JStr "sdp")]))).2 =
      [Log "Received"; Send 1 reply] /\
    ClientFlow.on_ws_message false (Some reply) =
      ClientFlow.CCreated Shorten.OfferCreated (Some (JStr "sdp")).
Proof.
  exact (proj1 (offer_answer_echo Part001 1 [1; 2]%nat (fun _ => OPEN)
                  [("type", JStr "offer"); ("offer", JStr "sdp")] false) eq_refl).
Defined.

(** Whether [c] is registered after the events, from [b]: the last
    connect or close of [c] decides. *)
Fixpoint registered (c : conn) (b : bool) (es : list revent) : bool :=
  match es with
  | [] => b
  | Connect ws :: r => registered c (b || Nat.eqb ws c) r
  | Closed ws :: r => registered c (b && negb (Nat.eqb ws c)) r
  | Message _ _ :: r => registered c b r
  end.

Lemma existsb_on_close (c ws : conn) (l : list conn) :
  existsb (Nat.eqb c) (on_close ws l) = existsb (Nat.eqb c) l && negb (Nat.eqb ws c).
Proof.
  unfold on_close. induction l as [| x xs IH]; simpl; [reflexivity|].
  destruct (Nat.eqb_spec x ws) as [-> | Hx]; simpl; rewrite IH.
  - destruct (Nat.eqb_spec c ws) as [-> | Hc]; simpl; [|reflexivity].
    rewrite Nat.eqb_refl. simpl. rewrite !andb_false_r. reflexivity.
  - destruct (Nat.eqb_spec c x) as [-> | Hc]; simpl; [|reflexivity].
    rewrite (proj2 (Nat.eqb_neq ws x)) by congruence. reflexivity.
Qed.

Lemma rstep_member (v : variant) (ready : conn -> ready_state) (clients : list conn)
    (e : revent) (c : conn) :
  existsb (Nat.eqb c) (rstep v ready clients e).1 =
  match e with
  | Connect ws => existsb (Nat.eqb c) clients || Nat.eqb ws c
  | Closed ws => existsb (Nat.eqb c) clients && negb (Nat.eqb ws c)
  | Message _ _ => existsb (Nat.eqb c) clients
  end.
Proof.
  destruct e as [ws | ws m | ws]; simpl.
  - unfold on_connection. destruct (existsb (Nat.eqb ws) clients) eqn:E.
    + destruct (Nat.eqb_spec ws c) as [-> | _]; [|rewrite orb_false_r; reflexivity].
      rewrite E. reflexivity.
    + rewrite existsb_app. simpl. rewrite orb_false_r, (Nat.eqb_sym c ws). reflexivity.
  - rewrite on_message_clients. reflexivity.
  - apply existsb_on_close.
Qed.

(** X19: the size [/health] reports counts exactly the connections whose
    last connect or close event was a connect. *)
Theorem clients_are_registered (v : variant) (ready : conn -> ready_state) (c : conn)
    (es : list revent) :
  forall clients,
  In c (rrun v ready clients es).1 <-> registered c (existsb (Nat.eqb c) clients) es = true.
Proof.
  induction es as [| e es IH]; intros clients; simpl.
  - rewrite existsb_exists. split.
    + intros H. exists c. split; [exact H | apply Nat.eqb_refl].
    + intros (x & Hx & Heq). apply Nat.eqb_eq in Heq. subst. exact Hx.
  - pose proof (rstep_member v ready clients e c) as Hm.
    destruct (rstep v ready clients e) as [cl acts] eqn:E.
    destruct (rrun v ready cl es) as [cl' acts'] eqn:E'. simpl.
    specialize (IH cl). rewrite E' in IH. simpl in IH, Hm. rewrite IH, Hm.
    destruct e; reflexivity.
Qed.

End RelaySessionFacts.

Module ReceiverMoreFacts.
Import Receiver ReceiverFacts.

Lemma total_app (a b : list bytes) : total (a ++ b) = total a + total b.
Proof. unfold total. rewrite fold_right_app. induction a as [| c a IH]; simpl; lia. Qed.

Lemma receiveFile_size (s : state) (m : message) :
  receivedSize s = total (receivedChunks s) ->
  receivedSize (o_state (receiveFile s m)) = total (receivedChunks (o_state (receiveFile s m))).
Proof.
  intros H. destruct m as [[md |] | d]; simpl; [| exact H |].
  - destruct (get_prop md "name"); reflexivity.
  - assert (E : receivedSize s + byteLength d = total (receivedChunks s ++ [d]))
      by (rewrite total_app; simpl; lia).
    destruct (get_prop (fileMetadata s) "size") as [_ | [[| ? | z | ? | ? | ?] |]];
      try exact E; simpl; destruct (Z.eqb _ z); exact E.
Qed.

(** X11: [receivedSize] always equals the bytes of [receivedChunks]:
    the handler keeps the two globals in step, exceptions included. *)
Theorem received_size_invariant (s : state) (ms : list message) :
  receivedSize s = total (receivedChunks s) ->
  receivedSize (run s ms).1 = total (receivedChunks (run s ms).1).
Proof.
  revert s. induction ms as [| m ms IH]; intros s H; [exact H|]. simpl.
  specialize (IH (o_state (receiveFile s m)) (receiveFile_size s m H)).
  destruct (run (o_state (receiveFile s m)) ms) as [s' os]. exact IH.
Qed.

Lemma received_size_invariant_witness :
  receivedSize init = total (receivedChunks init) /\
  receivedSize (run init [DBinary [Byte.x01]; DString None;
                          DString (Some (metadata_json "f" 2 "t")); DBinary [Byte.x02]]).1 =
  total (receivedChunks (run init [DBinary [Byte.x01]; DString None;
                          DString (Some (metadata_json "f" 2 "t")); DBinary [Byte.x02]]).1).
Proof. split; [reflexivity|]. apply received_size_invariant. reflexivity. Defined.

Lemma fired_cons (s : state) (m : message) (ms : list message) :
  fired (run s (m :: ms)).2 = o_fired (receiveFile s m) ++ fired (run (o_state (receiveFile s m)) ms).2.
Proof.
  simpl. destruct (run (o_state (receiveFile s m)) ms) as [s' os]. reflexivity.
Qed.

Lemma fired_from (s : state) (ms : list message) (a : artifact) :
  receivedSize s = total (receivedChunks s) ->
  In a (fired (run s ms).2) ->
  exists md, (md = fileMetadata s \/ In (DString (Some md)) ms) /\
    prop_or_undef md "size" = Some (JNum (byteLength (blob_bytes a))) /\
    blob_type a = blob_type_of (prop_or_undef md "fileType") /\
    file_name a = prop_or_undef md "name".
Proof.
  revert s. induction ms as [| m ms IH]; intros s Hinv Ha; [destruct Ha|].
  rewrite fired_cons, in_app_iff in Ha. destruct Ha as [Ha | Ha].
  - destruct m as [[md |] | d]; simpl in Ha;
      [destruct (get_prop md "name"); destruct Ha | destruct Ha |].
    unfold prop_or_undef at 1.
    destruct (get_prop (fileMetadata s) "size") as [u | declared] eqn:Es; [destruct Ha|].
    destruct declared as [[| ? | z | ? | ? | ?] |]; try destruct Ha.
    destruct (Z.eqb_spec (receivedSize s + byteLength d) z) as [Hz | _]; [|destruct Ha].
    destruct Ha as [<- | []]. exists (fileMetadata s). simpl.
    split; [left; reflexivity|]. unfold prop_or_undef at 1. rewrite Es.
    split; [|split; reflexivity]. do 2 f_equal.
    rewrite total_concat, total_app. simpl. rewrite Hinv in Hz. lia.
  - destruct (IH _ (receiveFile_size s m Hinv) Ha) as (md & Hwhere & Hprops).
    exists md. split; [|exact Hprops]. destruct Hwhere as [E | E]; [|right; right; exact E].
    destruct m as [[md' |] | d]; simpl in E.
    + right; left. destruct (get_prop md' "name"); simpl in E; subst; reflexivity.
    + left. exact E.
    + left. destruct (get_prop (fileMetadata s) "size") as [_ | [[| ? | z | ? | ? | ?] |]];
        simpl in E; try exact E. destruct (Z.eqb _ z); exact E.
Qed.

(** X12: every completion of a session is built from a metadata record
    the session received: the artifact's byte length is that record's
    [size], its type is that record's [fileType] as [new Blob]
    normalises it, and its file name is the record's [name]. *)
Theorem completion_matches_metadata (ms : list message) (a : artifact) :
  In a (fired (run init ms).2) ->
  exists md, In (DString (Some md)) ms /\
    prop_or_undef md "size" = Some (JNum (byteLength (blob_bytes a))) /\
    blob_type a = blob_type_of (prop_or_undef md "fileType") /\
    file_name a = prop_or_undef md "name".
Proof.
  intros Ha. destruct (fired_from init ms a eq_refl Ha) as (md & [E | E] & Hprops).
  - subst md. destruct Hprops as [Hsz _]. discriminate.
  - exists md. split; [exact E | exact Hprops].
Qed.

Lemma completion_matches_metadata_witness :
  let a := mkArtifact [Byte.x01; Byte.x02] "t" (Some (JStr "f")) in
  In a (fired (run init [DString (Some (metadata_json "f" 2 "t")); DBinary [Byte.x01; Byte.x02]]).2) /\
  exists md, In (DString (Some md)) [DString (Some (metadata_json "f" 2 "t")); DBinary [Byte.x01; Byte.x02]] /\
    prop_or_undef md "size" = Some (JNum (byteLength (blob_bytes a))) /\
    blob_type a = blob_type_of (prop_or_undef md "fileType") /\
    file_name a = prop_or_undef md "name".
Proof.
  split; [left; reflexivity|]. apply completion_matches_metadata. left. reflexivity.
Defined.

End ReceiverMoreFacts.

Module TokenStoreMoreFacts.
Import TokenStore TokenStoreFacts.

(** X13: the reveal page shows the expired page exactly when the
    [/consume] call behind its button would answer [{error: 'expired'}]. *)
Theorem reveal_agrees_with_consume (tokens : gmap string json) (id : string) :
  (reveal_page id tokens).1 = RNotFoundPage <-> (consume id tokens).1 = RExpired.
Proof.
  unfold reveal_page, consume. destruct (tokens !! id) as [tok |]; [|simpl; tauto].
  destruct (truthy (Some tok)); simpl; split; intros; first [reflexivity | discriminate].
Qed.

(** X14: once the TTL timer of [id] has run, [/consume/:id] answers
    expired, whatever happens later (stores use fresh ids). *)
Theorem expired_stays_expired (tokens : gmap string json) (id : string) (es : list event) :
  Forall (no_store_of id) es ->
  (consume id (run tokens (Expire id :: es))).1 = RExpired.
Proof.
  intros Hes. simpl. rewrite consume_absent; [reflexivity|].
  apply run_absent; [exact Hes|]. apply lookup_delete_eq.
Qed.

Lemma expired_stays_expired_witness :
  Forall (no_store_of "a") [Store "b" (Some (JStr "t")); Peek "a"] /\
  (consume "a" (run (<["a" := JStr "t"]> ∅)
                  [Expire "a"; Store "b" (Some (JStr "t")); Peek "a"])).1 = RExpired.
Proof.
  split; [repeat constructor; discriminate|].
  apply expired_stays_expired. repeat constructor; discriminate.
Defined.

End TokenStoreMoreFacts.

Module IceWaitMoreFacts.
Import IceWait.

Lemma run_task_unlistened (w : wstate) (x : Z * task) :
  listening w = false -> listening (run_task w x) = false.
Proof.
  destruct w as [r l], x as [t [g |]]; simpl; intros ->; simpl; [reflexivity|].
  unfold resolve. simpl. destruct r; reflexivity.
Qed.

Lemma run_tasks_unlistened (ts : list (Z * task)) :
  forall w, listening w = false -> listening (run_tasks w ts) = false.
Proof.
  induction ts as [| x ts IH]; intros w H; [exact H|].
  unfold run_tasks. simpl. apply IH. apply run_task_unlistened. exact H.
Qed.

(** X15: the wait never leaves its [icegatheringstatechange] handler
    registered: by the time every task has run the handler is removed,
    whichever of the handler and the timer settled the promise. *)
Theorem handler_removed (timeout : Z) (changes : list (Z * gathering)) :
  forall w, listening (run_tasks w (schedule timeout changes)) = false.
Proof.
  induction changes as [| [t g] rest IH]; intros w; simpl.
  - unfold run_tasks. simpl. unfold resolve. destruct (resolved_at w); reflexivity.
  - destruct (t <? timeout).
    + unfold run_tasks. simpl. apply IH.
    + unfold run_tasks. simpl. apply run_tasks_unlistened.
      unfold resolve. destruct (resolved_at w); reflexivity.
Qed.

End IceWaitMoreFacts.

Module ClientFlowFacts.
Import ClientFlow.

Lemma onload_chunks_pos (f : Sender.file) (fuel : nat) :
  forall o, 0 <= o < Sender.fsize f ->
  Forall (fun c => (0 < length c)%nat) (Sender.sent_chunks (Sender.onload fuel f o)).
Proof.
  induction fuel as [| fuel IH]; intros o Ho; [constructor|].
  pose proof (SenderFacts.length_slice f o (proj1 Ho)) as Hlen.
  cbn [Sender.onload].
  set (r := Sender.slice f o (o + Sender.chunkSize)) in *.
  change Sender.chunkSize with 16384 in Hlen. unfold Sender.fsize in Ho.
  assert (Hr : (0 < length r)%nat) by lia.
  destruct (o + Z.of_nat (length r) <? Sender.fsize f) eqn:E.
  - unfold Sender.sent_chunks. cbn [flat_map]. constructor; [exact Hr|].
    apply (IH (o + Z.of_nat (length r))). apply Z.ltb_lt in E. lia.
  - unfold Sender.sent_chunks. cbn [flat_map]. constructor; [exact Hr | constructor].
Qed.

Lemma deliver_interleave (o : Z) (cs : list Receiver.bytes) :
  deliver (Sender.interleave o cs ++ [Sender.FileSent]) = map Receiver.DBinary cs.
Proof.
  revert o. induction cs as [| c cs IH]; intros o; [reflexivity|].
  simpl. unfold deliver in *. simpl. f_equal. apply IH.
Qed.

Lemma concat_repeat_nil {A} (k : nat) (x : list A) :
  concat (repeat ([] : list A) k ++ [x]) = x.
Proof. induction k as [| k IH]; simpl; [apply app_nil_r | exact IH]. Qed.

(** X16: sending composed with receiving: the frames [sendFiles] puts
    on the data channel, handed to [receiveFile] in order, make the
    receiver fire exactly one completion whatever state it was in: the
    blob is the file's bytes, named as the file, with the file's type
    as [new Blob] normalises it, and no handler call throws. This includes the empty file, sent as one
    empty chunk. *)
Theorem transfer_end_to_end (f : Sender.file) (rest : list Sender.file) (fuel : nat)
    (s : Receiver.state) :
  (Z.to_nat (Sender.fsize f) < fuel)%nat ->
  exists acts,
    Sender.sendFiles fuel (f :: rest) = Some acts /\
    Receiver.fired (Receiver.run s (deliver acts)).2 =
      [Receiver.mkArtifact (Sender.fbytes f) (Receiver.blob_type_of (Some (JStr (Sender.ftype f))))
         (Some (JStr (Sender.fname f)))] /\
    Forall (fun o => Receiver.o_threw o = false) (Receiver.run s (deliver acts)).2.
Proof.
  intros Hfuel.
  destruct (SenderFacts.onload_shape f fuel 0) as (cs & Hshape & Hcat & _ & Hne);
    [unfold Sender.fsize; lia | rewrite Z.sub_0_r; exact Hfuel |].
  eexists. split; [reflexivity|].
  change (deliver (Sender.SendStr (Sender.metadata f) :: Sender.ReadSlice 0 ::
                   Sender.onload fuel f 0))
    with (Receiver.DString (Some (Sender.metadata f)) ::
          deliver (Sender.ReadSlice 0 :: Sender.onload fuel f 0)).
  rewrite Hshape, deliver_interleave. simpl skipn in Hcat.
  change (Sender.metadata f)
    with (Receiver.metadata_json (Sender.fname f) (Sender.fsize f) (Sender.ftype f)).
  destruct (Z.eq_dec (Sender.fsize f) 0) as [H0 | Hpos].
  - (* the empty file: one empty chunk *)
    destruct f as [n t b]. unfold Sender.fsize in H0. simpl in H0, Hcat.
    destruct b; [|simpl in H0; lia]. simpl in Hfuel.
    destruct fuel as [| fuel']; [lia|].
    assert (Hcs : cs = [[]]).
    { pose proof (f_equal Sender.sent_chunks Hshape) as E.
      rewrite SenderFacts.sent_chunks_interleave in E. rewrite <- E. reflexivity. }
    subst cs. split; reflexivity || (repeat constructor).
  - assert (Hall : Forall (fun c => (0 < length c)%nat) cs).
    { pose proof (f_equal Sender.sent_chunks Hshape) as E.
      rewrite SenderFacts.sent_chunks_interleave in E. rewrite <- E.
      apply onload_chunks_pos. unfold Sender.fsize in *. lia. }
    assert (Htot : 0 + ReceiverFacts.total cs = Sender.fsize f).
    { rewrite <- ReceiverFacts.total_concat, Hcat. reflexivity. }
    destruct (ReceiverFacts.feed_chunks (Sender.fname f) (Sender.ftype f) (Sender.fsize f)
                cs 0 [] Hall Hne Htot) as [H1 H2].
    cbn [Receiver.run]. simpl Receiver.receiveFile. cbn [Receiver.o_state].
    destruct (Receiver.run _ (map Receiver.DBinary cs)) as [s' os] eqn:E.
    simpl in H1, H2 |- *. split.
    + unfold Receiver.fired. simpl. rewrite flat_map_concat_map, H1, concat_repeat_nil.
      rewrite Hcat. reflexivity.
    + constructor; [reflexivity | exact H2].
Qed.

Lemma transfer_end_to_end_witness :
  (Z.to_nat (Sender.fsize (Sender.mkFile "x" "text/plain" [Byte.x41; Byte.x42])) < 3)%nat /\
  exists acts,
    Sender.sendFiles 3 [Sender.mkFile "x" "text/plain" [Byte.x41; Byte.x42]] = Some acts /\
    Receiver.fired (Receiver.run Receiver.init (deliver acts)).2 =
      [Receiver.mkArtifact [Byte.x41; Byte.x42] "text/plain" (Some (JStr "x"))] /\
    Forall (fun o => Receiver.o_threw o = false) (Receiver.run Receiver.init (deliver acts)).2.
Proof.
  split; [unfold Sender.fsize; simpl; lia|].
  apply (transfer_end_to_end (Sender.mkFile "x" "text/plain" [Byte.x41; Byte.x42]) [] 3
           Receiver.init).
  unfold Sender.fsize; simpl; lia.
Defined.

(** X17: the share button's guard is exactly what [sendFiles] needs: a
    click never reaches [sendFiles] with no file selected, so
    [currentFile.name] never throws. *)
Theorem share_never_throws (channel_open : bool) (fuel : nat) (files : list Sender.file) :
  share_click channel_open fuel files <> ShareRan None /\
  (channel_open = true -> files <> [] -> exists acts, share_click channel_open fuel files = ShareRan (Some acts)).
Proof.
  split.
  - unfold share_click. destruct channel_open; [|discriminate].
    destruct files; simpl; discriminate.
  - intros -> Hne. destruct files as [| f fs]; [congruence|]. simpl. eexists. reflexivity.
Qed.

Lemma share_never_throws_witness :
  [Sender.mkFile "a" "t" []] <> [] /\
  share_click true 1 [] <> ShareRan None /\
  exists acts, share_click true 1 [Sender.mkFile "a" "t" []] = ShareRan (Some acts).
Proof.
  split; [discriminate|]. split; [exact (proj1 (share_never_throws true 1 []))|].
  exact (proj2 (share_never_throws true 1 [Sender.mkFile "a" "t" []]) eq_refl ltac:(discriminate)).
Defined.

(** X18: the page and the server together: a nonempty token string
    posted to [/store] comes back as the short URL
    [location.origin + '/t/' + id] for the fresh [id], whose page is
    served and whose [/consume] returns that string; an empty string is
    refused with 400, which the page treats as a failed shortening. *)
Theorem short_url_round_trip (origin : string) (tokens : gmap string json) (id tok : string) :
  (tok <> "" ->
   let '(r, t') := TokenStore.store id (Some (JStr tok)) tokens in
   Shorten.storeTokenAndGetShortUrl origin (http_of r) = Some (origin +:+ "/t/" +:+ id) /\
   TokenStore.reveal_page id t' = (TokenStore.RPage id, t') /\
   TokenStore.consume id t' = (TokenStore.RToken (JStr tok), delete id t')) /\
  Shorten.storeTokenAndGetShortUrl origin
    (http_of (TokenStore.store id (Some (JStr "")) tokens).1) = None.
Proof.
  split; [|reflexivity]. intros Hne.
  assert (Ht : truthy (Some (JStr tok)) = true).
  { simpl. destruct (String.eqb_spec tok ""); [contradiction | reflexivity]. }
  unfold TokenStore.store. rewrite Ht. split; [reflexivity|].
  unfold TokenStore.reveal_page, TokenStore.consume. rewrite lookup_insert_eq, Ht.
  split; reflexivity.
Qed.

Lemma short_url_round_trip_witness :
  "{}" <> "" /\
  (let '(r, t') := TokenStore.store "id1" (Some (JStr "{}")) ∅ in
   Shorten.storeTokenAndGetShortUrl "https://h" (http_of r) = Some ("https://h" +:+ "/t/" +:+ "id1") /\
   TokenStore.reveal_page "id1" t' = (TokenStore.RPage "id1", t') /\
   TokenStore.consume "id1" t' = (TokenStore.RToken (JStr "{}"), delete "id1" t')) /\
  Shorten.storeTokenAndGetShortUrl "https://h"
    (http_of (TokenStore.store "id1" (Some (JStr "")) ∅).1) = None.
Proof.
  split; [discriminate|].
  split; [apply (proj1 (short_url_round_trip "https://h" ∅ "id1" "{}")); discriminate|].
  exact (proj2 (short_url_round_trip "https://h" ∅ "id1" "{}")).
Defined.

End ClientFlowFacts.
